(** * pyramid_session_redis: the session utilities of [util.py]

    A shallow embedding of [pyramid_session_redis/util.py]: the payload
    codec ([empty_session_payload], [encode_session_payload],
    [decode_session_payload]), the allocation of a unique session id against
    a Redis pipeline ([_insert_session_id_if_unique],
    [create_unique_session_id]), the default id generator and the settings
    parser ([_parse_settings]), [prefixed_id] and the decorators [refresh]
    and [persist].

    Python dictionaries with string keys are [gmap string pyval]; the
    settings mapping, whose iteration order matters, is an association
    list.  Exceptions are the [Raise] case of [result].

    Of the older package kept beside it, [pyramid_redis_sessions/util.py],
    the settings parser is embedded, in the module [Legacy]: its only
    required setting is [secret].  The rest of that package is not: it has
    no payload codec, no [set_redis_ttl] flag (its allocator always queues
    SET then EXPIRE) and a generator that hashes 20 random bytes. *)

From Stdlib Require Import ZArith Lia Ascii String List.
From stdpp Require Import base option list strings gmap fin_maps.

Local Open Scope string_scope.
Local Open Scope Z_scope.

(** ** Python values and exceptions *)

#[warnings="-register-all"]
Inductive pyval : Type :=
| VNone
| VBool (b : bool)
| VInt (z : Z)
| VFloat (mantissa exponent10 : Z)
| VStr (s : string)
| VDict (items : list (string * pyval))
| VCallable (name : string)
| VPartial (func : string) (kwarg : pyval).

Inductive exn : Type :=
| ConfigurationError (msg : string)
| ValueError
| TypeError
| KeyError (key : string)
| WatchError
| ResponseError.

Inductive result (A : Type) : Type :=
| Ok (a : A)
| Raise (e : exn).

Arguments Ok {A} a.
Arguments Raise {A} e.

#[global] Instance result_ret : MRet result := fun A a => Ok a.
#[global] Instance result_bind : MBind result := fun A B f r =>
  match r with
  | Ok a => f a
  | Raise e => Raise e
  end.
#[global] Instance result_fmap : FMap result := fun A B f r =>
  match r with
  | Ok a => Ok (f a)
  | Raise e => Raise e
  end.

(** Python truth value testing ([if v:], [not v], [all], [any]). *)
Definition truthy (v : pyval) : bool :=
  match v with
  | VNone => false
  | VBool b => b
  | VInt z => negb (Z.eqb z 0)
  | VFloat m _ => negb (Z.eqb m 0)
  | VStr s => negb (String.eqb s "")
  | VDict items => match items with [] => false | _ => true end
  | VCallable _ => true
  | VPartial _ _ => true
  end.

(** An optional integer argument ([None] or an [int]) as a Python value. *)
Definition of_int_opt (o : option Z) : pyval :=
  match o with
  | Some z => VInt z
  | None => VNone
  end.

Definition of_bool_opt (o : option bool) : pyval :=
  match o with
  | Some b => VBool b
  | None => VNone
  end.

(** [a - b] on optional integers: [None - int] is a [TypeError]. *)
Definition py_sub (a b : option Z) : result Z :=
  match a, b with
  | Some x, Some y => Ok (x - y)
  | _, _ => Raise TypeError
  end.

(** ** The payload codec *)

Definition SESSION_API_VERSION : Z := 1.

(** [empty_session_payload(timeout=0, python_expires=None)]; [time_now] is
    the value read from [int_time()]. *)
Definition empty_session_payload (time_now : Z)
    (timeout : option Z) (python_expires : option bool) : gmap string pyval :=
  let _created := time_now in
  let data : gmap string pyval :=
    <["v" := VInt SESSION_API_VERSION]>
      (<["c" := VInt _created]> (<["m" := VDict []]> ∅)) in
  match timeout with
  | Some t =>
      if truthy (VInt t) then
        let data := <["t" := VInt t]> data in
        if truthy (of_bool_opt python_expires)
        then <["x" := VInt (_created + t)]> data
        else data
      else data
  | None => data
  end.

(** The condition of line 161,
    [not timeout_trigger or (time_now >= (expires - timeout_trigger))],
    with Python's short-circuit [or]: the subtraction is evaluated only when
    [timeout_trigger] is truthy. *)
Definition recompute_due (time_now : Z) (expires timeout_trigger : option Z)
    : result bool :=
  if negb (truthy (of_int_opt timeout_trigger)) then Ok true
  else d ← py_sub expires timeout_trigger; Ok (Z.leb d time_now).

(** [encode_session_payload(managed_dict, created, timeout, expires,
    timeout_trigger=None, python_expires=None)]. *)
Definition encode_session_payload (time_now : Z)
    (managed_dict : pyval) (created : Z) (timeout expires : option Z)
    (timeout_trigger : option Z) (python_expires : option bool)
    : result (gmap string pyval) :=
  let data : gmap string pyval :=
    <["v" := VInt SESSION_API_VERSION]>
      (<["c" := VInt created]> (<["m" := managed_dict]> ∅)) in
  let data :=
    if truthy (of_int_opt expires) && truthy (of_bool_opt python_expires)
    then <["x" := of_int_opt expires]> data
    else data in
  match timeout with
  | Some t =>
      if truthy (VInt t) then
        let data := <["t" := VInt t]> data in
        if truthy (of_bool_opt python_expires) then
          due ← recompute_due time_now expires timeout_trigger;
          if due : bool then Ok (<["x" := VInt (time_now + t)]> data)
          else Ok data
        else Ok data
      else Ok data
  | None => Ok data
  end.

(** [d[k]]: a missing key raises [KeyError]. *)
Definition py_getitem (d : gmap string pyval) (k : string) : result pyval :=
  match d !! k with
  | Some v => Ok v
  | None => Raise (KeyError k)
  end.

(** [d.get(k)]: a missing key gives [None]. *)
Definition py_get (d : gmap string pyval) (k : string) : pyval :=
  default VNone (d !! k).

Definition decode_session_payload (payload : gmap string pyval)
    : result (gmap string pyval) :=
  m ← py_getitem payload "m";
  c ← py_getitem payload "c";
  v ← py_getitem payload "v";
  Ok (<["expires" := py_get payload "x"]>
      (<["timeout" := py_get payload "t"]>
       (<["version" := v]>
        (<["created" := c]>
         (<["managed_dict" := m]> ∅))))).

(** The mapping [decode_session_payload] builds for a record with the
    given fields. *)
Definition decoded_record (managed_dict : pyval) (created : Z)
    (timeout expires : option Z) : gmap string pyval :=
  <["expires" := of_int_opt expires]>
    (<["timeout" := of_int_opt timeout]>
     (<["version" := VInt SESSION_API_VERSION]>
      (<["created" := VInt created]>
       (<["managed_dict" := managed_dict]> ∅)))).

(** A timeout as the payload keeps it: [0] is not stored, and reads back as
    [None]. *)
Definition stored_timeout (timeout : option Z) : option Z :=
  match timeout with
  | Some t => if truthy (VInt t) then Some t else None
  | None => None
  end.

(** An optional integer field read back from a decoded record. *)
Definition int_field (v : pyval) : result (option Z) :=
  match v with
  | VNone => Ok None
  | VInt z => Ok (Some z)
  | _ => Raise TypeError
  end.

(** Modelled from the spec: the caller that persists a stored record (the
    session object, which is not among the sources).  "At flush time" the
    record is "re-encoded via PayloadCodec": the stored payload is decoded,
    and [created] and [expires] as read, the record's [timeout] and the new
    [managed_dict] are encoded again at the current time. *)
Definition persist (timeout : option Z) (python_expires : option bool)
    (time_now : Z) (managed_dict : pyval) (timeout_trigger : option Z)
    (payload : gmap string pyval) : result (gmap string pyval) :=
  d ← decode_session_payload payload;
  created ← int_field (py_get d "created");
  expires ← int_field (py_get d "expires");
  match created with
  | Some c =>
      encode_session_payload time_now managed_dict c timeout expires
        timeout_trigger python_expires
  | None => Raise TypeError
  end.

(** One persist of a record's life: when it happens, the working data
    written and the trigger in force. *)
Record persist_event : Type := PersistEvent {
  at_time : Z;
  new_dict : pyval;
  trigger : option Z }.

(** The payloads stored one after the other when the record that starts as
    [payload] is persisted at each event. *)
Fixpoint lifecycle (timeout : option Z) (python_expires : option bool)
    (payload : gmap string pyval) (events : list persist_event)
    : result (list (gmap string pyval)) :=
  match events with
  | [] => Ok []
  | ev :: events' =>
      payload' ← persist timeout python_expires (at_time ev) (new_dict ev)
                   (trigger ev) payload;
      rest ← lifecycle timeout python_expires payload' events';
      Ok (payload' :: rest)
  end.

(** The clock does not run backward: each event is at or after the one
    before, the first at or after [start]. *)
Fixpoint clock_ordered (start : Z) (events : list persist_event) : Prop :=
  match events with
  | [] => True
  | ev :: events' => start ≤ at_time ev ∧ clock_ordered (at_time ev) events'
  end.

(** The calls of [encode_session_payload] that fail: timeout set, expiry
    tracking on, a nonzero trigger, and no expires to compare with. *)
Definition unset_expires_compared (timeout expires trig : option Z)
    (pe : option bool) : Prop :=
  truthy (of_int_opt timeout) = true
  ∧ truthy (of_bool_opt pe) = true
  ∧ truthy (of_int_opt trig) = true
  ∧ expires = None.

(** A stored payload of the record created at [created]: the three
    mandatory keys, and under [x] nothing or the integer [expires]. *)
Definition stored_record (created : Z) (expires : option Z)
    (payload : gmap string pyval) : Prop :=
  is_Some (payload !! "m")
  ∧ payload !! "c" = Some (VInt created)
  ∧ is_Some (payload !! "v")
  ∧ payload !! "x" = VInt <$> expires.

(** An expires value lies between [created + timeout] and
    [time_now + timeout]. *)
Definition expires_bounds (created : Z) (timeout : option Z) (time_now : Z)
    (expires : option Z) : Prop :=
  ∀ x, expires = Some x →
       ∃ t, timeout = Some t ∧ created + t ≤ x ≤ time_now + t.

(** ** The store: a Redis connection with WATCH / MULTI / EXEC

    The part of the Redis client the allocator uses.  The server holds a
    keyspace and, for the statements below, a journal of the write commands
    it applied (most recent first).  Other clients act between two calls of
    this client: their commands are given explicitly, as the interleaving of
    one attempt. *)

Record entry : Type := Entry { e_value : string; e_ttl : option Z }.

Inductive command : Type :=
| SET (name value : string)
| SETEX (name : string) (time : Z) (value : string)
| DEL (name : string).

Definition command_key (c : command) : string :=
  match c with
  | SET k _ => k
  | SETEX k _ _ => k
  | DEL k => k
  end.

Record server : Type := Server {
  keyspace : gmap string entry;
  journal : list command }.

(** One write command at the server.  [SETEX] with a non-positive time is
    refused ("invalid expire time"); [DEL] of a missing key changes nothing. *)
Definition run_command (c : command) (s : server) : result unit * server :=
  match c with
  | SET k v =>
      (Ok (), Server (<[k := Entry v None]> (keyspace s)) (c :: journal s))
  | SETEX k t v =>
      if Z.ltb 0 t
      then (Ok (), Server (<[k := Entry v (Some t)]> (keyspace s)) (c :: journal s))
      else (Raise ResponseError, s)
  | DEL k =>
      match keyspace s !! k with
      | Some _ => (Ok (), Server (delete k (keyspace s)) (c :: journal s))
      | None => (Ok (), s)
      end
  end.

(** Whether the command, run on [s], modifies its key (and so invalidates a
    WATCH on it). *)
Definition modifies (c : command) (s : server) : bool :=
  match c with
  | SET _ _ => true
  | SETEX _ t _ => Z.ltb 0 t
  | DEL k => bool_decide (is_Some (keyspace s !! k))
  end.

(** The client side: a [redis.pipeline()] object. *)
Record pipeline : Type := Pipeline {
  srv : server;
  watching : list string;
  dirty : bool;
  explicit_transaction : bool;
  command_stack : list command }.

Definition pipe (A : Type) : Type := pipeline → result A * pipeline.

#[global] Instance pipe_ret : MRet pipe := fun A a p => (Ok a, p).
#[global] Instance pipe_bind : MBind pipe := fun A B f m p =>
  match m p with
  | (Ok a, p') => f a p'
  | (Raise e, p') => (Raise e, p')
  end.

(** [try: body except WatchError: handler]. *)
Definition try_except_WatchError {A} (body handler : pipe A) : pipe A :=
  fun p =>
    match body p with
    | (Raise WatchError, p') => handler p'
    | r => r
    end.

(** The commands of other clients reaching the server between two calls. *)
Fixpoint others (cs : list command) : pipe () :=
  match cs with
  | [] => mret ()
  | c :: cs' =>
      fun p =>
        let touched :=
          bool_decide (command_key c ∈ watching p) && modifies c (srv p) in
        others cs'
          (Pipeline (run_command c (srv p)).2 (watching p)
                    (dirty p || touched) (explicit_transaction p)
                    (command_stack p))
  end.

Definition pipeline_reset : pipe () := fun p =>
  (Ok (), Pipeline (srv p) [] false false []).

(** [pipe.watch(name)]: sent at once. *)
Definition pipe_watch (name : string) : pipe () := fun p =>
  (Ok (), Pipeline (srv p) (name :: watching p) (dirty p)
                   (explicit_transaction p) (command_stack p)).

(** [pipe.get(name)] in immediate execution mode (after [watch], before
    [multi]). *)
Definition pipe_get (name : string) : pipe (option string) := fun p =>
  (Ok (e_value <$> keyspace (srv p) !! name), p).

(** [pipe.multi()]: enter buffered mode. *)
Definition pipe_multi : pipe () := fun p =>
  (Ok (), Pipeline (srv p) (watching p) (dirty p) true (command_stack p)).

(** A write command issued on the pipeline after [multi]: buffered. *)
Definition pipe_command (c : command) : pipe () := fun p =>
  (Ok (), Pipeline (srv p) (watching p) (dirty p) (explicit_transaction p)
                   (command_stack p ++ [c])).

Definition pipe_set (name value : string) : pipe () :=
  pipe_command (SET name value).

Definition pipe_setex (name : string) (time : Z) (value : string) : pipe () :=
  pipe_command (SETEX name time value).

(** The buffered commands at the server, in order; every command runs, and
    the first error is the one reported. *)
Fixpoint run_commands (cs : list command) (s : server) : result unit * server :=
  match cs with
  | [] => (Ok (), s)
  | c :: cs' =>
      let '(r, s') := run_command c s in
      let '(r', s'') := run_commands cs' s' in
      (match r with Ok _ => r' | Raise e => Raise e end, s'')
  end.

(** [pipe.execute()]: MULTI, the buffered commands, EXEC.  When a watched key
    was modified since its WATCH the transaction is dropped as a whole and
    [WatchError] is raised; the pipeline is reset in both cases. *)
Definition pipe_execute : pipe () := fun p =>
  if dirty p then (Raise WatchError, (pipeline_reset p).2)
  else
    let '(r, s') := run_commands (command_stack p) (srv p) in
    (r, (pipeline_reset (Pipeline s' (watching p) (dirty p)
                                  (explicit_transaction p) (command_stack p))).2).

(** [with redis.pipeline() as pipe: body]: a fresh pipeline on the server,
    reset when the block is left, normally or by an exception. *)
Definition with_pipeline {A} (body : pipe A) (s : server) : result A * server :=
  let '(r, p) := body (Pipeline s [] false false []) in
  (r, srv (pipeline_reset p).2).

(** ** Allocation of a unique session id *)

(** What is outside the allocator in one iteration of the loop: the id the
    generator returns, the clock, and the commands of the other clients
    that reach the server before WATCH, between WATCH and GET, and between
    GET and EXEC. *)
Record attempt : Type := Attempt {
  candidate : string;
  clock : Z;
  before_watch : list command;
  before_get : list command;
  before_exec : list command }.

Section Allocator.

Variable serialize : gmap string pyval → string.

Definition _insert_session_id_if_unique (env : attempt)
    (timeout : option Z) (session_id : string) (set_redis_ttl : bool)
    (data_payload : option (gmap string pyval))
    (new_payload_func : option (() → gmap string pyval))
    (python_expires : option bool)
    : server → result (option string) * server :=
  let data_payload :=
    match data_payload with
    | None =>
        match new_payload_func with
        | Some f => f ()
        | None => empty_session_payload (clock env) timeout python_expires
        end
    | Some d => d
    end in
  let _payload := serialize data_payload in
  with_pipeline
    (try_except_WatchError
       (others (before_watch env);;
        pipe_watch session_id;;
        others (before_get env);;
        value ← pipe_get session_id;
        match value with
        | Some _ => mret None
        | None =>
            pipe_multi;;
            match timeout with
            | Some t =>
                if truthy (VInt t) && set_redis_ttl
                then pipe_setex session_id t _payload
                else pipe_set session_id _payload
            | None => pipe_set session_id _payload
            end;;
            others (before_exec env);;
            pipe_execute;;
            mret (Some session_id)
        end)
       (mret None)).

(** The loop [while 1: ...] runs once per element of [run], which gives
    what the generator and the other clients do in each iteration; [None]
    means the loop is still running when [run] is used up. *)
Fixpoint create_unique_session_id (run : list attempt)
    (timeout : option Z) (set_redis_ttl : bool)
    (data_payload : option (gmap string pyval))
    (new_payload_func : option (() → gmap string pyval))
    (python_expires : option bool)
    (s : server) : option (result string * server) :=
  match run with
  | [] => None
  | env :: run' =>
      let session_id := candidate env in
      match _insert_session_id_if_unique env timeout session_id
              set_redis_ttl data_payload new_payload_func python_expires s with
      | (Ok (Some attempt), s') => Some (Ok attempt, s')
      | (Ok None, s') =>
          create_unique_session_id run' timeout set_redis_ttl data_payload
            new_payload_func python_expires s'
      | (Raise e, s') => Some (Raise e, s')
      end
  end.

End Allocator.

(** The server once the commands [cs] of other clients have run. *)
Definition server_after (cs : list command) (s : server) : server :=
  foldl (λ s c, (run_command c s).2) s cs.

(** Whether one of the commands [cs], run from [s], modifies a key of
    [names]. *)
Fixpoint touched_by (names : list string) (cs : list command) (s : server)
    : bool :=
  match cs with
  | [] => false
  | c :: cs' =>
      (bool_decide (command_key c ∈ names) && modifies c s)
      || touched_by names cs' (run_command c s).2
  end.

(** The server as the GET of an attempt sees it, and as its EXEC finds it. *)
Definition server_at_get (env : attempt) (s : server) : server :=
  server_after (before_get env) (server_after (before_watch env) s).

Definition server_at_exec (env : attempt) (s : server) : server :=
  server_after (before_exec env) (server_at_get env s).

(** The watched key was modified by another client between the WATCH and
    the EXEC of the attempt. *)
Definition watch_conflict (env : attempt) (session_id : string) (s : server)
    : bool :=
  touched_by [session_id] (before_get env) (server_after (before_watch env) s)
  || touched_by [session_id] (before_exec env) (server_at_get env s).

(** The payload an attempt writes: the one given, the one the factory
    makes, or an empty session. *)
Definition initial_payload (env : attempt) (timeout : option Z)
    (data_payload : option (gmap string pyval))
    (new_payload_func : option (() → gmap string pyval))
    (python_expires : option bool) : gmap string pyval :=
  match data_payload with
  | None =>
      match new_payload_func with
      | Some f => f ()
      | None => empty_session_payload (clock env) timeout python_expires
      end
  | Some d => d
  end.

(** The server after the iterations [pre] of the loop. *)
Definition server_after_attempts (serialize : gmap string pyval → string)
    (timeout : option Z) (set_redis_ttl : bool)
    (data_payload : option (gmap string pyval))
    (new_payload_func : option (() → gmap string pyval))
    (python_expires : option bool) (pre : list attempt) (s : server)
    : server :=
  foldl (λ s env,
           (_insert_session_id_if_unique serialize env timeout (candidate env)
              set_redis_ttl data_payload new_payload_func python_expires s).2)
        s pre.

(** ** The default id generator *)

Definition urlsafe_alphabet : list ascii :=
  list_ascii_of_string
    "ABCDEFGHIJKLMNOPQRSTUVWXYZabcdefghijklmnopqrstuvwxyz0123456789-_".

Definition b64_char (sextet : N) : ascii :=
  nth (N.to_nat sextet) urlsafe_alphabet "="%char.

(** Three bytes, 24 bits, as four characters of six bits each. *)
Definition b64_quad (a b c : Byte.byte) : list ascii :=
  let x := Byte.to_N a in
  let y := Byte.to_N b in
  let z := Byte.to_N c in
  [ b64_char (x / 4);
    b64_char ((x mod 4) * 16 + y / 16);
    b64_char ((y mod 16) * 4 + z / 64);
    b64_char (z mod 64) ]%N.

Fixpoint urlsafe_b64encode (bs : list Byte.byte) : list ascii :=
  match bs with
  | [] => []
  | [a] =>
      let x := Byte.to_N a in
      [ b64_char (x / 4); b64_char ((x mod 4) * 16); "="%char; "="%char ]%N
  | [a; b] =>
      let x := Byte.to_N a in
      let y := Byte.to_N b in
      [ b64_char (x / 4); b64_char ((x mod 4) * 16 + y / 16);
        b64_char ((y mod 16) * 4); "="%char ]%N
  | a :: b :: c :: rest => b64_quad a b c ++ urlsafe_b64encode rest
  end.

(** [s.rstrip(b'=')]: the trailing padding characters removed. *)
Fixpoint rstrip_pad (cs : list ascii) : list ascii :=
  match cs with
  | [] => []
  | c :: cs' =>
      match rstrip_pad cs' with
      | [] => if Ascii.eqb c "="%char then [] else [c]
      | r => c :: r
      end
  end.

(** Modelled from the spec: [compat.token_urlsafe], which
    [_generate_session_id] calls and which is not among the sources.  The
    spec asks of the generator "a string with at least 48 bytes (384 bits)
    of entropy from a cryptographically secure source, URL-safe text
    encoded, no padding characters": [token_urlsafe nbytes] draws [nbytes]
    bytes from the secure source and returns their URL-safe base64 text
    with the padding stripped.  [entropy i] is the [i]-th byte the source
    hands to this call. *)
Definition token_urlsafe (entropy : nat → Byte.byte) (nbytes : nat)
    : string :=
  string_of_list_ascii
    (rstrip_pad (urlsafe_b64encode (map entropy (seq 0 nbytes)))).

Definition _generate_session_id (entropy : nat → Byte.byte) : string :=
  token_urlsafe entropy 48.

(** [prefixed_id(prefix="session:")]. *)
Definition prefixed_id (entropy : nat → Byte.byte) (prefix : string)
    : string :=
  let session_id := _generate_session_id entropy in
  prefix ++ session_id.

(** A character of the URL-safe alphabet that is not the padding. *)
Definition url_text (c : ascii) : Prop :=
  c ∈ urlsafe_alphabet ∧ c ≠ "="%char.

(** The place of a character in the alphabet (64 when it is not there). *)
Fixpoint index_of (c : ascii) (cs : list ascii) : nat :=
  match cs with
  | [] => 0
  | c' :: cs' => if Ascii.eqb c c' then 0 else S (index_of c cs')
  end.

Definition b64_index (c : ascii) : N := N.of_nat (index_of c urlsafe_alphabet).


(** ** The settings parser *)

(** The library functions [_parse_settings] coerces with: the builtins
    [int] and [float] ([None] when the call raises) and
    [pyramid.settings.asbool]. *)
Class Externals : Type := {
  py_int : pyval → option Z;
  py_float : pyval → option pyval;
  asbool : pyval → bool }.

(** The exception of a failed [int(v)] or [float(v)]: [ValueError] for a
    string that is not a literal (or a float without an integer value),
    [TypeError] for an argument that is neither a string nor a number. *)
Definition coercion_error (v : pyval) : exn :=
  match v with
  | VStr _ | VFloat _ _ => ValueError
  | _ => TypeError
  end.

Definition int_ `{Externals} (v : pyval) : result pyval :=
  match py_int v with
  | Some z => Ok (VInt z)
  | None => Raise (coercion_error v)
  end.

Definition float_ `{Externals} (v : pyval) : result pyval :=
  match py_float v with
  | Some f => Ok f
  | None => Raise (coercion_error v)
  end.

Definition configs_bool : list string :=
  [ "cookie_secure"; "cookie_httponly"; "cookie_on_exception";
    "set_redis_ttl"; "set_redis_ttl_readheavy"; "detect_changes";
    "deserialized_fails_new"; "python_expires" ].

Definition configs_int : list string := [ "port"; "db"; "cookie_max_age" ].

Definition configs_int_none : list string := [ "timeout"; "timeout_trigger" ].

(** [s.split(".")]. *)
Fixpoint split_dot (s : string) : list string :=
  match s with
  | EmptyString => [EmptyString]
  | String c s' =>
      if Ascii.eqb c "."%char then EmptyString :: split_dot s'
      else
        match split_dot s' with
        | h :: t => String c h :: t
        | [] => [String c EmptyString]
        end
  end.

(** [k.split(".")[-1]]. *)
Definition last_component (k : string) : string :=
  List.last (split_dot k) EmptyString.

(** [for x in xs: body], the body threading the options and able to raise. *)
Fixpoint for_each {A S : Type} (body : A → S → result S) (xs : list A) (s : S)
    : result S :=
  match xs with
  | [] => Ok s
  | x :: xs' => s' ← body x s; for_each body xs' s'
  end.

(** [if k in options: options[k] = f(options[k])]. *)
Definition coerce_key (f : pyval → result pyval) (k : string)
    (options : gmap string pyval) : result (gmap string pyval) :=
  match options !! k with
  | Some v => v' ← f v; Ok (<[k := v']> options)
  | None => Ok options
  end.

(** [v == "None"]. *)
Definition is_none_string (v : pyval) : bool :=
  match v with
  | VStr s => String.eqb s "None"
  | _ => false
  end.

(** The body of the loop over [configs_int_none] on one value. *)
Definition int_or_none `{Externals} (v : pyval) : result pyval :=
  if is_none_string v then Ok VNone
  else
    i ← int_ v;
    if negb (truthy i) then Ok VNone else Ok i.

Definition secret_cookiesigner_error : string :=
  "One, and only one, of `redis.sessions.secret` and `redis.sessions.cookie_signer` must be provided.".

Definition prefix_generator_error : string :=
  "cannot specify custom id_generator and a key prefix".

(** The options [_parse_settings] has collected when its first loop ends. *)
Definition collect_options (settings : list (string * pyval))
    : gmap string pyval :=
  foldl (λ options kv, <[last_component kv.1 := kv.2]> options) ∅
    (filter (λ kv, String.prefix "redis.sessions." kv.1 = true) settings).

(** Neither or both of [secret] and [cookie_signer] are given (with a
    truthy value). *)
Definition credentials_misconfigured (options : gmap string pyval) : bool :=
  (truthy (py_get options "secret") && truthy (py_get options "cookie_signer"))
  || negb (truthy (py_get options "secret")
           || truthy (py_get options "cookie_signer")).

(** Both a key prefix and an id generator are configured. *)
Definition prefix_conflict (options : gmap string pyval) : bool :=
  bool_decide (is_Some (options !! "prefix"))
  && bool_decide (is_Some (options !! "id_generator")).

(** A setting of integer or float type is present with a value that [int]
    or [float] refuses. *)
Definition uncoercible `{Externals} (options : gmap string pyval) : Prop :=
  (∃ k v, k ∈ configs_int ∧ options !! k = Some v ∧ py_int v = None)
  ∨ (∃ k v, k ∈ configs_int_none ∧ options !! k = Some v
            ∧ v ≠ VStr "None" ∧ py_int v = None)
  ∨ (∃ v, options !! "socket_timeout" = Some v ∧ py_float v = None).

(** The four coercion steps of [_parse_settings], on the collected
    options. *)
Definition coerce_options `{Externals} (options : gmap string pyval)
    : result (gmap string pyval) :=
  options ← for_each (coerce_key (λ v, Ok (VBool (asbool v))))
              configs_bool options;
  options ← for_each (coerce_key int_) configs_int options;
  options ← for_each (coerce_key int_or_none) configs_int_none options;
  coerce_key float_ "socket_timeout" options.

(** [settings] is the mapping as its items, in iteration order. *)
Definition _parse_settings `{Externals} (settings : list (string * pyval))
    : result (gmap string pyval) :=
  let keys :=
    filter (λ kv, String.prefix "redis.sessions." kv.1 = true) settings in
  let options : gmap string pyval :=
    foldl (λ options kv, <[last_component kv.1 := kv.2]> options) ∅ keys in
  let _secret_cookiesigner :=
    (py_get options "secret", py_get options "cookie_signer") in
  if (truthy _secret_cookiesigner.1 && truthy _secret_cookiesigner.2)
     || negb (truthy _secret_cookiesigner.1 || truthy _secret_cookiesigner.2)
  then Raise (ConfigurationError secret_cookiesigner_error)
  else
    options ← for_each (coerce_key (λ v, Ok (VBool (asbool v))))
                configs_bool options;
    options ← for_each (coerce_key int_) configs_int options;
    options ← for_each (coerce_key int_or_none) configs_int_none options;
    options ← coerce_key float_ "socket_timeout" options;
    if bool_decide (is_Some (options !! "prefix"))
       && bool_decide (is_Some (options !! "id_generator"))
    then Raise (ConfigurationError prefix_generator_error)
    else
      match options !! "prefix" with
      | Some prefix =>
          Ok (<["id_generator" := VPartial "prefixed_id" prefix]>
                (delete "prefix" options))
      | None => Ok options
      end.

(** A reference instance for plain ASCII input: decimal integer literals
    with an optional sign, surrounding blanks allowed. *)

Definition is_blank (c : ascii) : bool :=
  let n := nat_of_ascii c in
  Nat.eqb n 32 || (Nat.leb 9 n && Nat.leb n 13).

Fixpoint lstrip (s : string) : string :=
  match s with
  | String c s' => if is_blank c then lstrip s' else s
  | EmptyString => EmptyString
  end.

Fixpoint rstrip (s : string) : string :=
  match s with
  | String c s' =>
      match rstrip s' with
      | EmptyString => if is_blank c then EmptyString else String c EmptyString
      | r => String c r
      end
  | EmptyString => EmptyString
  end.

Definition strip (s : string) : string := rstrip (lstrip s).

Definition digit_of (c : ascii) : option Z :=
  let n := nat_of_ascii c in
  if Nat.leb 48 n && Nat.leb n 57 then Some (Z.of_nat (n - 48)) else None.

Fixpoint digits_value (acc : Z) (s : string) : option Z :=
  match s with
  | EmptyString => Some acc
  | String c s' =>
      match digit_of c with
      | Some d => digits_value (10 * acc + d) s'
      | None => None
      end
  end.

Definition unsigned_literal (s : string) : option Z :=
  match s with
  | EmptyString => None
  | _ => digits_value 0 s
  end.

Definition int_literal (s : string) : option Z :=
  match strip s with
  | String "-" s' => Z.opp <$> unsigned_literal s'
  | String "+" s' => unsigned_literal s'
  | s' => unsigned_literal s'
  end.

Definition lower_ascii (c : ascii) : ascii :=
  let n := nat_of_ascii c in
  if Nat.leb 65 n && Nat.leb n 90 then ascii_of_nat (n + 32) else c.

Fixpoint lower (s : string) : string :=
  match s with
  | EmptyString => EmptyString
  | String c s' => String (lower_ascii c) (lower s')
  end.

Definition asbool_truthy : list string := [ "t"; "true"; "y"; "yes"; "on"; "1" ].

#[global] Instance ascii_externals : Externals := {|
  py_int v :=
    match v with
    | VInt z => Some z
    | VBool b => Some (if b then 1 else 0)
    | VFloat m e => if Z.leb 0 e then Some (m * 10 ^ e) else Some (Z.quot m (10 ^ (- e)))
    | VStr s => int_literal s
    | _ => None
    end;
  py_float v :=
    match v with
    | VInt z => Some (VFloat z 0)
    | VBool b => Some (VFloat (if b then 1 else 0) 0)
    | VFloat m e => Some (VFloat m e)
    | VStr s => (λ z, VFloat z 0) <$> int_literal s
    | _ => None
    end;
  asbool v :=
    match v with
    | VNone => false
    | VBool b => b
    | VInt z => Z.eqb z 1
    | VStr s => bool_decide (lower (strip s) ∈ asbool_truthy)
    | _ => false
    end |}.


(** ** The deferred-write decorators *)

(** A session as the decorators see it: the two flags of its
    [_session_state], and everything else of the object. *)
Record session (D : Type) : Type := Session {
  session_data : D;
  please_persist : bool;
  please_refresh : bool }.

Arguments Session {D} _ _ _.
Arguments session_data {D} _.
Arguments please_persist {D} _.
Arguments please_refresh {D} _.

(** A method of the session: it may change the session, and return or
    raise. *)
Definition method (D Args R : Type) : Type :=
  session D → Args → result R * session D.

Module Decorators.

(** [refresh(wrapped)]: the flag is set once [wrapped] has returned. *)
Definition refresh {D Args R} (wrapped : method D Args R) : method D Args R :=
  fun session arg =>
    match wrapped session arg with
    | (Ok result, session') =>
        (Ok result,
         Session (session_data session') (please_persist session') true)
    | (Raise e, session') => (Raise e, session')
    end.

(** [persist(wrapped)]. *)
Definition persist {D Args R} (wrapped : method D Args R) : method D Args R :=
  fun session arg =>
    match wrapped session arg with
    | (Ok result, session') =>
        (Ok result,
         Session (session_data session') true (please_refresh session'))
    | (Raise e, session') => (Raise e, session')
    end.

End Decorators.

(** ** Helpers of the statements on the allocator and the parser *)


(** The server an attempt's own write, if any, is applied to: as its GET saw
    it when the key was taken, as its EXEC found it otherwise. *)
Definition server_left_by_others (env : attempt) (session_id : string)
    (s : server) : server :=
  match keyspace (server_at_get env s) !! session_id with
  | Some _ => server_at_get env s
  | None => server_at_exec env s
  end.

(** [".".join(parts)]. *)
Definition join_dot (parts : list string) : string := String.concat "." parts.

(** No dot in the string. *)
Fixpoint dotless (s : string) : bool :=
  match s with
  | EmptyString => true
  | String c s' => negb (Ascii.eqb c "."%char) && dotless s'
  end.

(** The names [_parse_settings] coerces or rewrites. *)
Definition coerced_names : list string :=
  (configs_bool ++ configs_int ++ configs_int_none
     ++ ["socket_timeout"; "prefix"; "id_generator"])%list.

(** The coercion [_parse_settings] applies to the option [name]. *)
Definition coerced `{Externals} (name : string) (v : pyval) : result pyval :=
  if bool_decide (name ∈ configs_bool) then Ok (VBool (asbool v))
  else if bool_decide (name ∈ configs_int) then int_ v
  else if bool_decide (name ∈ configs_int_none) then int_or_none v
  else if bool_decide (name = "socket_timeout") then float_ v
  else Ok v.

(** ** The older package, [pyramid_redis_sessions/util.py] *)

Module Legacy.

Definition configs_bool : list string :=
  [ "cookie_secure"; "cookie_httponly"; "cookie_on_exception" ].

Definition configs_int : list string :=
  [ "timeout"; "port"; "db"; "cookie_max_age" ].

Definition secret_required_error : string :=
  "redis.sessions.secret is a required setting".

(** The coercion steps of the older [_parse_settings]. *)
Definition coerce_options `{Externals} (options : gmap string pyval)
    : result (gmap string pyval) :=
  options ← for_each (coerce_key (λ v, Ok (VBool (asbool v))))
              configs_bool options;
  options ← for_each (coerce_key int_) configs_int options;
  coerce_key float_ "socket_timeout" options.

Definition _parse_settings `{Externals} (settings : list (string * pyval))
    : result (gmap string pyval) :=
  let keys :=
    filter (λ kv, String.prefix "redis.sessions." kv.1 = true) settings in
  let options : gmap string pyval :=
    foldl (λ options kv, <[last_component kv.1 := kv.2]> options) ∅ keys in
  if negb (bool_decide (is_Some (options !! "secret")))
  then Raise (ConfigurationError secret_required_error)
  else
    options ← for_each (coerce_key (λ v, Ok (VBool (asbool v))))
                configs_bool options;
    options ← for_each (coerce_key int_) configs_int options;
    options ← coerce_key float_ "socket_timeout" options;
    if bool_decide (is_Some (options !! "prefix"))
       && bool_decide (is_Some (options !! "id_generator"))
    then Raise (ConfigurationError prefix_generator_error)
    else
      match options !! "prefix" with
      | Some prefix =>
          Ok (<["id_generator" := VPartial "prefixed_id" prefix]>
                (delete "prefix" options))
      | None => Ok options
      end.

(** A setting of integer or float type that [int] or [float] refuses. *)
Definition uncoercible `{Externals} (options : gmap string pyval) : Prop :=
  (∃ k v, k ∈ configs_int ∧ options !! k = Some v ∧ py_int v = None)
  ∨ (∃ v, options !! "socket_timeout" = Some v ∧ py_float v = None).

(** The coercion the older [_parse_settings] applies to the option
    [name]. *)
Definition coerced `{Externals} (name : string) (v : pyval) : result pyval :=
  if bool_decide (name ∈ configs_bool) then Ok (VBool (asbool v))
  else if bool_decide (name ∈ configs_int) then int_ v
  else if bool_decide (name = "socket_timeout") then float_ v
  else Ok v.

End Legacy.

(** The names the two parsers treat differently: the boolean names and the
    trigger the older one does not know, and the timeout, which only the
    newer one reads as [None] when it is zero or ["None"]. *)
Definition names_since_legacy : list string :=
  [ "set_redis_ttl"; "set_redis_ttl_readheavy"; "detect_changes";
    "deserialized_fails_new"; "python_expires"; "timeout";
    "timeout_trigger" ].


(** * Properties *)

(** ** The payload codec *)

Lemma truthy_int_false (o : option Z) :
  truthy (of_int_opt o) = false ↔ o = None ∨ o = Some 0.
Proof.
  destruct o as [z|]; simpl.
  - rewrite negb_false_iff, Z.eqb_eq. split.
    + intros ->. by right.
    + intros [?|[= ->]]; done.
  - split; [by left | done].
Qed.

Lemma truthy_int_true (o : option Z) :
  truthy (of_int_opt o) = true ↔ ∃ z, o = Some z ∧ z ≠ 0.
Proof.
  destruct o as [z|]; simpl.
  - rewrite negb_true_iff, Z.eqb_neq. split.
    + intros ?. by exists z.
    + by intros (? & [= <-] & ?).
  - split; [done | by intros (? & ? & ?)].
Qed.

Lemma truthy_bool_true (o : option bool) :
  truthy (of_bool_opt o) = true ↔ o = Some true.
Proof. destruct o as [[]|]; simpl; split; congruence. Qed.

Lemma Ok_inj {A} (a b : A) : Ok a = Ok b → a = b.
Proof. intros H. by injection H. Qed.

Lemma result_bind_Ok {A B} (a : A) (f : A → result B) : Ok a ≫= f = f a.
Proof. reflexivity. Qed.

Lemma result_bind_Raise {A B} (e : exn) (f : A → result B) :
  Raise e ≫= f = Raise e.
Proof. reflexivity. Qed.

Lemma decoded_record_inj m c t x t' x' :
  decoded_record m c t x = decoded_record m c t' x' → t = t' ∧ x = x'.
Proof.
  intros Heq.
  assert (Ht := f_equal (.!! "timeout") Heq).
  assert (Hx := f_equal (.!! "expires") Heq).
  vm_compute in Ht, Hx.
  destruct t, t', x, x'; simplify_eq; done.
Qed.

Lemma roundtrip_tracking_off time_now m c t x trig pe :
  truthy (of_bool_opt pe) = false →
  encode_session_payload time_now m c t x trig pe ≫= decode_session_payload
  = Ok (decoded_record m c (stored_timeout t) None).
Proof.
  intros Hpe. unfold encode_session_payload, stored_timeout.
  rewrite Hpe, andb_false_r.
  destruct t as [t|]; [destruct (truthy (VInt t))|]; reflexivity.
Qed.

(** C2, as stated, fails: a timeout of zero reads back as [None], and
    without expiry tracking (the default of the four-argument call) the
    [expires] passed in is not stored at all. *)
Lemma roundtrip_counterexample :
  encode_session_payload 0 (VDict []) 100 (Some 0) None None None
    ≫= decode_session_payload
  ≠ Ok (decoded_record (VDict []) 100 (Some 0) None)
  ∧ encode_session_payload 0 (VDict []) 100 (Some 400) (Some 500) None None
      ≫= decode_session_payload
    ≠ Ok (decoded_record (VDict []) 100 (Some 400) (Some 500)).
Proof.
  split; rewrite roundtrip_tracking_off by reflexivity;
    intros Heq; apply Ok_inj, decoded_record_inj in Heq as [? ?]; discriminate.
Qed.

(** C2, amended: for every managed_dict [m], created [c], timeout [t] and
    expires [x], decoding the payload encoded by the four-argument call
    gives managed_dict [m], created [c], the current version, the timeout
    [t] when it is a nonzero integer and [None] when it is unset or zero,
    and expires [None]; the result is exactly [{m, c, version, t, x}] if and
    only if [t] is not zero and [x] is unset. *)
Theorem decode_encode_roundtrip (time_now : Z) (m : pyval) (c : Z)
    (t x : option Z) :
  encode_session_payload time_now m c t x None None ≫= decode_session_payload
  = Ok (decoded_record m c (stored_timeout t) None)
  ∧ (encode_session_payload time_now m c t x None None
       ≫= decode_session_payload
     = Ok (decoded_record m c t x)
     ↔ t ≠ Some 0 ∧ x = None).
Proof.
  rewrite roundtrip_tracking_off by reflexivity.
  split; [reflexivity|]. split.
  - intros Heq. apply Ok_inj, decoded_record_inj in Heq as [Ht Hx].
    split; [|done]. intros ->. discriminate.
  - intros [Ht ->]. do 2 f_equal.
    destruct t as [t|]; [|done]. unfold stored_timeout. simpl.
    destruct (Z.eqb_spec t 0) as [->|]; [done | reflexivity].
Qed.

(** The policy of line 161 on its own: with no trigger the recompute is due;
    with a trigger it is due exactly from [expires - trigger] on. *)
Lemma recompute_due_no_trigger time_now expires trig :
  truthy (of_int_opt trig) = false →
  recompute_due time_now expires trig = Ok true.
Proof. intros H. unfold recompute_due. by rewrite H. Qed.

Lemma recompute_due_trigger time_now x g :
  g ≠ 0 →
  recompute_due time_now (Some x) (Some g) = Ok (Z.leb (x - g) time_now).
Proof.
  intros Hg. unfold recompute_due. simpl.
  destruct (Z.eqb_spec g 0); [done | reflexivity].
Qed.

Lemma recompute_due_unset_expires time_now g :
  g ≠ 0 → recompute_due time_now None (Some g) = Raise TypeError.
Proof.
  intros Hg. unfold recompute_due. simpl.
  destruct (Z.eqb_spec g 0); [done | reflexivity].
Qed.

(** C3, as stated, fails: with a timeout of zero (and expiry tracking on, no
    trigger) nothing is recomputed and the prior value stays; with expiry
    tracking off (the default) the payload has no expiry at all. *)
Lemma recompute_counterexample :
  (∃ p, encode_session_payload 500 (VDict []) 100 (Some 0) (Some 1000)
          None (Some true) = Ok p
        ∧ p !! "x" = Some (VInt 1000)
        ∧ p !! "x" ≠ Some (VInt (500 + 0)))
  ∧ (∃ p, encode_session_payload 500 (VDict []) 100 (Some 400) (Some 600)
            None None = Ok p
          ∧ p !! "x" = None).
Proof. split; eexists; repeat split; done. Qed.

(** C3, amended: when timeout is set to a nonzero value and expiry tracking
    (python_expires) is on, then for every now, currentExpires and
    timeoutTrigger: with timeoutTrigger unset or zero the expiry written is
    now + timeout; with timeoutTrigger set and currentExpires a number, the
    expiry is recomputed to now + timeout if and only if
    now >= currentExpires - timeoutTrigger (the boundary recomputes), and
    otherwise the prior expires value is kept (a prior value of zero being
    left out of the payload). *)
Theorem expiry_recompute_policy (time_now : Z) (m : pyval) (c t : Z)
    (expires trig : option Z) :
  t ≠ 0 →
  (truthy (of_int_opt trig) = false →
   ∃ p, encode_session_payload time_now m c (Some t) expires trig (Some true)
        = Ok p
        ∧ p !! "x" = Some (VInt (time_now + t)))
  ∧ (∀ x g, expires = Some x → trig = Some g → g ≠ 0 →
     recompute_due time_now expires trig = Ok (bool_decide (x - g ≤ time_now))
     ∧ ∃ p, encode_session_payload time_now m c (Some t) expires trig
              (Some true) = Ok p
            ∧ (x - g ≤ time_now → p !! "x" = Some (VInt (time_now + t)))
            ∧ (time_now < x - g →
               p !! "x" = if decide (x = 0) then None else Some (VInt x))).
Proof.
  intros Ht. split.
  - intros Htrig. unfold encode_session_payload. simpl.
    destruct (Z.eqb_spec t 0) as [|_]; [done|]. simpl.
    rewrite recompute_due_no_trigger by done. simpl.
    eexists. split; [reflexivity|]. by rewrite lookup_insert_eq.
  - intros x g -> -> Hg.
    rewrite recompute_due_trigger by done. split.
    { f_equal. destruct (Z.leb_spec (x - g) time_now).
      - by rewrite bool_decide_eq_true_2.
      - rewrite bool_decide_eq_false_2; [done | lia]. }
    unfold encode_session_payload. simpl.
    destruct (Z.eqb_spec t 0) as [|_]; [done|]. simpl.
    rewrite recompute_due_trigger by done. simpl.
    destruct (Z.leb_spec (x - g) time_now) as [Hle|Hlt].
    + eexists. split; [reflexivity|]. split; [|lia].
      intros _. by rewrite lookup_insert_eq.
    + eexists. split; [reflexivity|]. split; [lia|].
      intros _. rewrite andb_true_r.
      destruct (Z.eqb_spec x 0) as [->|Hx]; simpl.
      * by destruct (decide (0 = 0)).
      * destruct (decide (x = 0)); [done|]. reflexivity.
Qed.

Lemma expiry_recompute_policy_witness :
  ∃ p, encode_session_payload 1440 (VDict []) 1000 (Some 400) (Some 1400)
         (Some 60) (Some true) = Ok p
       ∧ (1400 - 60 ≤ 1440 → p !! "x" = Some (VInt (1440 + 400))).
Proof.
  destruct (expiry_recompute_policy 1440 (VDict []) 1000 400 (Some 1400)
              (Some 60) ltac:(lia)) as [_ H].
  destruct (H 1400 60 eq_refl eq_refl ltac:(lia)) as [_ (p & Hp & Hdue & _)].
  exists p. split; [exact Hp | exact Hdue].
Defined.

(** The trigger window of 60 seconds on a timeout of 400: 100 seconds before
    the expiry nothing is recomputed, 50 seconds before it is, and so it is
    at the boundary of 60 seconds. *)
Example trigger_window (expires : Z) :
  recompute_due (expires - 100) (Some expires) (Some 60) = Ok false
  ∧ recompute_due (expires - 50) (Some expires) (Some 60) = Ok true
  ∧ recompute_due (expires - 60) (Some expires) (Some 60) = Ok true.
Proof.
  rewrite !recompute_due_trigger by done.
  repeat split; f_equal; lia.
Qed.

(** C4, as stated, fails: with expiry tracking on, a trigger configured and
    the recompute not yet due, the mapping still has the key [x], holding
    the prior expires. *)
Lemma expires_key_counterexample :
  ∃ p, encode_session_payload 100 (VDict []) 50 (Some 400) (Some 1000)
         (Some 60) (Some true) = Ok p
       ∧ p !! "x" = Some (VInt 1000)
       ∧ truthy (of_int_opt (Some 60)) = true
       ∧ recompute_due 100 (Some 1000) (Some 60) = Ok false.
Proof. eexists. repeat split; reflexivity. Qed.

(** C4, amended: for every input on which [encode_session_payload] produces
    a mapping, the key [x] appears in it if and only if expiry tracking is
    enabled (python_expires set) and either the prior expires is set (a
    nonzero number, which the codec carries over) or timeout is set and the
    recompute is due (no trigger configured, or the condition of the
    expiration policy holds); in all other cases the mapping has no [x]
    key. *)
Theorem expires_key_present (time_now : Z) (m : pyval) (c : Z)
    (timeout expires trig : option Z) (pe : option bool)
    (p : gmap string pyval) :
  encode_session_payload time_now m c timeout expires trig pe = Ok p →
  is_Some (p !! "x")
  ↔ truthy (of_bool_opt pe) = true
    ∧ (truthy (of_int_opt expires) = true
       ∨ (truthy (of_int_opt timeout) = true
          ∧ recompute_due time_now expires trig = Ok true)).
Proof.
  unfold encode_session_payload.
  destruct (truthy (of_bool_opt pe)) eqn:Hpe;
    destruct (truthy (of_int_opt expires)) eqn:Hx;
    destruct timeout as [t|]; simpl;
    try destruct (Z.eqb_spec t 0) as [->|Ht]; simpl;
    try (destruct (recompute_due time_now expires trig) as [[]|] eqn:Hdue;
         simpl);
    intros Hp; try discriminate; apply Ok_inj in Hp; subst p;
    split;
    try (intros _; split; [done|]; (by left) || (by right));
    try (intros _; apply elem_of_dom; vm_compute; done);
    try (intros [? _]; done);
    try (intros [? [?|[_ ?]]]; done);
    try (intros [? [?|[? _]]]; done);
    try (intros [z Hz]; vm_compute in Hz; done).
Qed.

Lemma expires_key_present_witness :
  is_Some
    ((<["t" := VInt 400]>
      (<["x" := VInt 1000]>
       (<["v" := VInt 1]>
        (<["c" := VInt 50]> (<["m" := VDict []]> (∅ : gmap string pyval))))))
     !! "x")
  ↔ truthy (of_bool_opt (Some true)) = true
    ∧ (truthy (of_int_opt (Some 1000)) = true
       ∨ (truthy (of_int_opt (Some 400)) = true
          ∧ recompute_due 100 (Some 1000) (Some 60) = Ok true)).
Proof.
  apply (expires_key_present 100 (VDict []) 50 (Some 400) (Some 1000)
           (Some 60) (Some true)).
  reflexivity.
Defined.

Lemma encode_raises time_now m c timeout expires trig pe :
  unset_expires_compared timeout expires trig pe →
  encode_session_payload time_now m c timeout expires trig pe
  = Raise TypeError.
Proof.
  intros (Ht & Hpe & Hg & ->).
  apply truthy_int_true in Ht as (t & -> & Ht).
  apply truthy_int_true in Hg as (g & -> & Hg).
  apply truthy_bool_true in Hpe as ->.
  unfold encode_session_payload. simpl.
  destruct (Z.eqb_spec t 0); [done|]. simpl.
  by rewrite recompute_due_unset_expires.
Qed.

Lemma recompute_due_total time_now expires trig :
  ¬ (truthy (of_int_opt trig) = true ∧ expires = None) →
  ∃ b, recompute_due time_now expires trig = Ok b.
Proof.
  intros Hn. unfold recompute_due.
  destruct (truthy (of_int_opt trig)) eqn:Hg; simpl; [|by eexists].
  destruct expires as [x|]; [|by destruct Hn].
  apply truthy_int_true in Hg as (g & -> & _). by eexists.
Qed.

Lemma encode_returns time_now m c timeout expires trig pe :
  ¬ unset_expires_compared timeout expires trig pe →
  ∃ p, encode_session_payload time_now m c timeout expires trig pe = Ok p.
Proof.
  intros Hn. unfold encode_session_payload.
  destruct timeout as [t|]; [|by eexists].
  destruct (truthy (VInt t)) eqn:Ht; [|by eexists].
  destruct (truthy (of_bool_opt pe)) eqn:Hpe; [|by eexists].
  destruct (recompute_due_total time_now expires trig) as [b ->].
  { intros [Hg ->]. apply Hn. by repeat split. }
  simpl. destruct b; by eexists.
Qed.

(** C9: [encode_session_payload] is not total.  A call raises -- and what it
    raises is a [TypeError] -- exactly when timeout is set (to a nonzero
    value), python_expires is set (true), timeout_trigger is set to a
    nonzero value and expires is unset:
    the trigger comparison is then evaluated against the absent expires.
    Every other call produces a payload, so the function is total once
    expires is a number whenever a nonzero trigger is used with expiry
    tracking. *)
Theorem encode_not_total (time_now : Z) (m : pyval) (c : Z)
    (timeout expires trig : option Z) (pe : option bool) :
  (encode_session_payload time_now m c timeout expires trig pe
   = Raise TypeError
   ↔ unset_expires_compared timeout expires trig pe)
  ∧ ((∃ p, encode_session_payload time_now m c timeout expires trig pe = Ok p)
     ↔ ¬ unset_expires_compared timeout expires trig pe)
  ∧ (∀ e, encode_session_payload time_now m c timeout expires trig pe
          = Raise e → e = TypeError).
Proof.
  assert (Hdec : unset_expires_compared timeout expires trig pe
                 ∨ ¬ unset_expires_compared timeout expires trig pe).
  { unfold unset_expires_compared.
    destruct (truthy (of_int_opt timeout)), (truthy (of_bool_opt pe)),
      (truthy (of_int_opt trig)), expires;
      ((left; done) || (right; intros (? & ? & ? & ?); done)). }
  destruct Hdec as [Hc|Hn].
  - rewrite (encode_raises _ _ _ _ _ _ _ Hc).
    split; [done|]. split; [|by intros e [= <-]].
    split; [by intros [? ?] | done].
  - destruct (encode_returns time_now m c _ _ _ _ Hn) as [p Hp].
    rewrite Hp. split; [done|]. split; [|done].
    split; [done | by exists p].
Qed.

Example encode_type_error :
  encode_session_payload 500 (VDict []) 100 (Some 400) None (Some 60)
    (Some true) = Raise TypeError.
Proof. reflexivity. Qed.

(** ** The expiry of a record over its life *)

Lemma empty_session_payload_stored created timeout pe :
  ∃ xo, stored_record created xo (empty_session_payload created timeout pe)
        ∧ expires_bounds created timeout created xo.
Proof.
  unfold empty_session_payload.
  destruct timeout as [t|]; [destruct (truthy (VInt t)) eqn:Ht;
    [destruct (truthy (of_bool_opt pe))|]|].
  - exists (Some (created + t)). split; [by repeat split|].
    intros x [= <-]. exists t. split; [done | lia].
  - exists None. split; [by repeat split | by intros ? ?].
  - exists None. split; [by repeat split | by intros ? ?].
  - exists None. split; [by repeat split | by intros ? ?].
Qed.

Lemma encode_stored time_now m c timeout expires trig pe p :
  encode_session_payload time_now m c timeout expires trig pe = Ok p →
  ∃ xo, stored_record c xo p
        ∧ (xo = None
           ∨ (xo = expires ∧ truthy (of_int_opt expires) = true)
           ∨ (∃ t, timeout = Some t ∧ xo = Some (time_now + t))).
Proof.
  unfold encode_session_payload.
  destruct (truthy (of_int_opt expires) && truthy (of_bool_opt pe)) eqn:Hkeep.
  - apply andb_true_iff in Hkeep as [Hx _].
    destruct expires as [x|]; [|done].
    destruct timeout as [t|]; [destruct (truthy (VInt t));
      [destruct (truthy (of_bool_opt pe));
        [destruct (recompute_due time_now (Some x) trig) as [[]|]; simpl|]|]|];
      intros Hp; try discriminate; apply Ok_inj in Hp; subst p.
    all: try (exists (Some x); split; [by repeat split | by right; left]).
    exists (Some (time_now + t)). split; [by repeat split|].
    right; right. by exists t.
  - destruct timeout as [t|]; [destruct (truthy (VInt t));
      [destruct (truthy (of_bool_opt pe));
        [destruct (recompute_due time_now expires trig) as [[]|]; simpl|]|]|];
      intros Hp; try discriminate; apply Ok_inj in Hp; subst p.
    all: try (exists None; split; [by repeat split | by left]).
    exists (Some (time_now + t)). split; [by repeat split|].
    right; right. by exists t.
Qed.

Lemma persist_stored timeout pe time_now m trig p c xo :
  stored_record c xo p →
  persist timeout pe time_now m trig p
  = encode_session_payload time_now m c timeout xo trig pe.
Proof.
  intros ([vm Hm] & Hc & [vv Hv] & Hx).
  unfold persist, decode_session_payload, py_getitem.
  rewrite Hm, Hc, Hv. simpl.
  assert (Hpx : py_get p "x" = of_int_opt xo).
  { unfold py_get. rewrite Hx. by destruct xo. }
  rewrite Hpx. generalize (py_get p "t"). intros vt.
  destruct xo; reflexivity.
Qed.

Lemma persist_step created timeout pe start time_now m trig p xo p' :
  start ≤ time_now →
  stored_record created xo p →
  expires_bounds created timeout start xo →
  created ≤ start →
  persist timeout pe time_now m trig p = Ok p' →
  ∃ xo', stored_record created xo' p'
         ∧ expires_bounds created timeout time_now xo'
         ∧ (∀ x y, xo = Some x → xo' = Some y → x ≤ y).
Proof.
  intros Hclock Hp Hb Hc Hstep.
  rewrite (persist_stored _ _ _ _ _ _ _ _ Hp) in Hstep.
  apply encode_stored in Hstep as (xo' & Hp' & Hcases).
  exists xo'. split; [done|].
  destruct Hcases as [->|[[-> _]|(t & Ht & ->)]].
  - split; [by intros ? ? | by intros ? ? ? ?].
  - split.
    + intros x Hx. destruct (Hb x Hx) as (t & Ht & ?).
      exists t. split; [done | lia].
    + intros x y -> [= ->]. lia.
  - split.
    + intros x [= <-]. exists t. split; [done | lia].
    + intros x y Hx [= <-]. destruct (Hb x Hx) as (t' & Ht' & ?).
      simplify_eq. lia.
Qed.

Lemma lifecycle_invariant created timeout pe events :
  ∀ start p xo payloads,
    created ≤ start →
    clock_ordered start events →
    stored_record created xo p →
    expires_bounds created timeout start xo →
    lifecycle timeout pe p events = Ok payloads →
    ∀ i q r,
      (p :: payloads) !! i = Some q →
      (∃ qo, stored_record created qo q
             ∧ ∀ x, qo = Some x → ∃ t, timeout = Some t ∧ created + t ≤ x)
      ∧ ((p :: payloads) !! S i = Some r →
         ∀ x y, q !! "x" = Some (VInt x) → r !! "x" = Some (VInt y) → x ≤ y).
Proof.
  induction events as [|ev events IH];
    intros start p xo payloads Hc Hclock Hp Hb Hrun i q r Hq.
  - apply Ok_inj in Hrun as <-.
    destruct i as [|i]; [|done]. injection Hq as <-. split; [|done].
    exists xo. split; [done|].
    intros x Hx. destruct (Hb x Hx) as (t & ? & ?). exists t. split; [done|lia].
  - simpl in Hrun. destruct Hclock as [Hle Hclock].
    destruct (persist timeout pe (at_time ev) (new_dict ev) (trigger ev) p)
      as [p'|] eqn:Hstep; [|done]. simpl in Hrun.
    destruct (lifecycle timeout pe p' events) as [rest|] eqn:Hrest; [|done].
    apply Ok_inj in Hrun as <-.
    destruct (persist_step _ _ _ _ _ _ _ _ _ _ Hle Hp Hb Hc Hstep)
      as (xo' & Hp' & Hb' & Hmono).
    destruct i as [|i].
    + injection Hq as <-. split.
      * exists xo. split; [done|].
        intros x Hx. destruct (Hb x Hx) as (t & ? & ?).
        exists t. split; [done|lia].
      * intros [= <-] x y Hx Hy. apply (Hmono x y).
        -- destruct Hp as (_ & _ & _ & Hpx). rewrite Hpx in Hx.
           destruct xo as [z|]; simpl in Hx; [|done]. by injection Hx as ->.
        -- destruct Hp' as (_ & _ & _ & Hpx). rewrite Hpx in Hy.
           destruct xo' as [z|]; simpl in Hy; [|done]. by injection Hy as ->.
    + apply (IH (at_time ev) p' xo' rest); [lia | done..].
Qed.

Lemma lifecycle_returns_from created t pe events :
  0 < created + t →
  ∀ start xo p,
    created ≤ start →
    stored_record created xo p →
    expires_bounds created (Some t) start xo →
    (truthy (VInt t) && truthy (of_bool_opt pe) = true → is_Some xo) →
    clock_ordered start events →
    ∃ payloads, lifecycle (Some t) pe p events = Ok payloads.
Proof.
  intros Hpos.
  induction events as [|ev events IH];
    intros start xo p Hc Hstored Hb Hset Hclock; [by eexists|].
  destruct Hclock as [Hle Hclock]. cbn [lifecycle].
  assert (Hx0 : ∀ x, xo = Some x → x ≠ 0).
  { intros x Hx. destruct (Hb x Hx) as (t' & [= <-] & ?). lia. }
  rewrite (persist_stored _ _ _ _ _ _ _ _ Hstored).
  destruct (encode_returns (at_time ev) (new_dict ev) created (Some t) xo
              (trigger ev) pe) as [p' Hp'].
  { intros (Ht & Hpe & _ & ->). destruct Hset as [? ?]; [|done].
    cbn [of_int_opt] in Ht. by rewrite Ht, Hpe. }
  rewrite Hp', result_bind_Ok.
  assert (Hstep : persist (Some t) pe (at_time ev) (new_dict ev) (trigger ev) p
                  = Ok p')
    by (by rewrite (persist_stored _ _ _ _ _ _ _ _ Hstored)).
  destruct (persist_step _ _ _ _ _ _ _ _ _ _ Hle Hstored Hb Hc Hstep)
    as (xo' & Hstored' & Hb' & _).
  destruct (IH (at_time ev) xo' p' ltac:(lia) Hstored' Hb') as [rest ->];
    [|done|by eexists].
  intros Htrack. specialize (Hset Htrack). destruct Hset as [x ->].
  assert (Hxt : truthy (of_int_opt (Some x)) = true).
  { apply truthy_int_true. exists x. split; [done|]. by apply Hx0. }
  unfold encode_session_payload in Hp'. rewrite Hxt in Hp'.
  destruct (truthy (VInt t)), (truthy (of_bool_opt pe)); try done.
  destruct Hstored' as (_ & _ & _ & Hx').
  destruct (recompute_due (at_time ev) (Some x) (trigger ev)) as [[]|];
    [| |done]; apply Ok_inj in Hp'; subst p';
    (destruct xo'; [by eexists | vm_compute in Hx'; done]).
Qed.

(** With a positive [created + timeout] and a clock that does not run
    backward, no persist of the record's life fails: the expires the
    trigger is compared with is always there. *)
Lemma lifecycle_returns created t pe events :
  0 < created + t →
  clock_ordered created events →
  ∃ payloads,
    lifecycle (Some t) pe (empty_session_payload created (Some t) pe) events
    = Ok payloads.
Proof.
  intros Hpos Hclock.
  destruct (empty_session_payload_stored created (Some t) pe)
    as (xo & Hstored & Hb).
  apply (lifecycle_returns_from created t pe events Hpos created xo);
    [lia | done | done | | done].
  unfold empty_session_payload in Hstored.
  destruct (truthy (VInt t)), (truthy (of_bool_opt pe));
    intros Htrack; try done.
  destruct Hstored as (_ & _ & _ & Hx).
  destruct xo; [by eexists | vm_compute in Hx; done].
Qed.

(** C7: over the life of a record -- created by [empty_session_payload] at
    [created], then persisted by successive encodes at non-decreasing times
    with the same timeout -- every stored payload keeps [created], an
    expires value in a payload is at least created + timeout, and from one
    payload to the next the expires value never moves backward. *)
Theorem expires_never_backward (created : Z) (timeout : option Z)
    (pe : option bool) (events : list persist_event)
    (payloads : list (gmap string pyval)) :
  clock_ordered created events →
  lifecycle timeout pe (empty_session_payload created timeout pe) events
  = Ok payloads →
  ∀ i p,
    (empty_session_payload created timeout pe :: payloads) !! i = Some p →
    p !! "c" = Some (VInt created)
    ∧ (∀ v, p !! "x" = Some v →
            ∃ x t, v = VInt x ∧ timeout = Some t ∧ created + t ≤ x)
    ∧ (∀ q x y,
         (empty_session_payload created timeout pe :: payloads) !! S i
         = Some q →
         p !! "x" = Some (VInt x) → q !! "x" = Some (VInt y) → x ≤ y).
Proof.
  intros Hclock Hrun i p Hp.
  destruct (empty_session_payload_stored created timeout pe)
    as (xo & Hstored & Hb).
  split; [|split].
  - destruct (lifecycle_invariant created timeout pe events created _ xo
                payloads ltac:(lia) Hclock Hstored Hb Hrun i p p Hp)
      as [(qo & (_ & Hc & _) & _) _]. exact Hc.
  - destruct (lifecycle_invariant created timeout pe events created _ xo
                payloads ltac:(lia) Hclock Hstored Hb Hrun i p p Hp)
      as [(qo & (_ & _ & _ & Hx) & Hlow) _].
    intros v Hv. rewrite Hx in Hv. destruct qo as [x|]; [|done].
    injection Hv as <-. destruct (Hlow x eq_refl) as (t & ? & ?).
    by exists x, t.
  - intros q x y Hq.
    by apply (lifecycle_invariant created timeout pe events created _ xo
                payloads ltac:(lia) Hclock Hstored Hb Hrun i p q Hp).
Qed.

(** ** The allocator *)

Lemma others_spec cs : ∀ p,
  others cs p
  = (Ok (), Pipeline (server_after cs (srv p)) (watching p)
                     (dirty p || touched_by (watching p) cs (srv p))
                     (explicit_transaction p) (command_stack p)).
Proof.
  induction cs as [|c cs IH]; intros p; simpl.
  - rewrite orb_false_r. by destruct p.
  - rewrite IH. simpl. by rewrite orb_assoc.
Qed.

Lemma touched_by_nil cs : ∀ s, touched_by [] cs s = false.
Proof.
  induction cs as [|c cs IH]; intros s; cbn [touched_by]; [done|].
  rewrite IH. by rewrite bool_decide_eq_false_2 by apply not_elem_of_nil.
Qed.

Section AllocatorProperties.

Variable serialize : gmap string pyval → string.

Lemma insert_absent env timeout session_id flag dp npf pe s :
  keyspace (server_at_get env s) !! session_id = None →
  _insert_session_id_if_unique serialize env timeout session_id flag dp npf
    pe s
  = if watch_conflict env session_id s
    then (Ok None, server_at_exec env s)
    else
      let _payload := serialize (initial_payload env timeout dp npf pe) in
      let write :=
        match timeout with
        | Some t =>
            if truthy (VInt t) && flag then SETEX session_id t _payload
            else SET session_id _payload
        | None => SET session_id _payload
        end in
      ((run_command write (server_at_exec env s)).1
         ≫= (λ _, Ok (Some session_id)),
       (run_command write (server_at_exec env s)).2).
Proof.
  intros Habs.
  unfold _insert_session_id_if_unique, with_pipeline,
    try_except_WatchError.
  unfold mbind, pipe_bind. rewrite others_spec. simpl.
  rewrite others_spec. simpl. unfold server_at_get in Habs.
  rewrite Habs. simpl.
  rewrite touched_by_nil. simpl.
  unfold watch_conflict, server_at_exec, server_at_get.
  fold (initial_payload env timeout dp npf pe).
  destruct timeout as [t|]; simpl;
    [destruct (negb (Z.eqb t 0) && flag)|]; simpl;
    rewrite others_spec; simpl;
    unfold pipe_execute; simpl;
    (destruct (touched_by [session_id] (before_get env) _
               || touched_by [session_id] (before_exec env) _);
     [reflexivity|]);
    simpl; try destruct (Z.ltb 0 t); reflexivity.
Qed.

Lemma insert_occupied env timeout session_id flag dp npf pe s :
  is_Some (keyspace (server_at_get env s) !! session_id) →
  _insert_session_id_if_unique serialize env timeout session_id flag dp npf
    pe s
  = (Ok None, server_at_get env s).
Proof.
  intros [e He].
  unfold _insert_session_id_if_unique, with_pipeline,
    try_except_WatchError.
  unfold mbind, pipe_bind. rewrite others_spec. simpl.
  rewrite others_spec. simpl. unfold server_at_get in He.
  rewrite He. reflexivity.
Qed.

Lemma insert_conflict env timeout session_id flag dp npf pe s :
  keyspace (server_at_get env s) !! session_id = None →
  watch_conflict env session_id s = true →
  _insert_session_id_if_unique serialize env timeout session_id flag dp npf
    pe s
  = (Ok None, server_at_exec env s).
Proof. intros Habs Hc. by rewrite insert_absent, Hc. Qed.

(** What an attempt that returns its id has done. *)
Lemma insert_committed env timeout session_id flag dp npf pe s id s' :
  _insert_session_id_if_unique serialize env timeout session_id flag dp npf
    pe s
  = (Ok (Some id), s') →
  id = session_id
  ∧ keyspace (server_at_get env s) !! session_id = None
  ∧ watch_conflict env session_id s = false
  ∧ e_value <$> keyspace s' !! session_id
    = Some (serialize (initial_payload env timeout dp npf pe))
  ∧ ∃ write, command_key write = session_id
             ∧ journal s' = write :: journal (server_at_exec env s).
Proof.
  destruct (keyspace (server_at_get env s) !! session_id) as [e|] eqn:Hget.
  { rewrite insert_occupied by (by eexists). discriminate. }
  rewrite insert_absent by done.
  destruct (watch_conflict env session_id s); [discriminate|].
  cbv zeta.
  destruct timeout as [t|]; [destruct (truthy (VInt t) && flag)|];
    cbn [run_command]; try destruct (Z.ltb 0 t); cbn;
    intros H; try discriminate; injection H as <- <-;
    (split; [done|]); (split; [done|]); (split; [done|]);
    cbn [keyspace journal];
    (split; [by rewrite lookup_insert_eq|]);
    eexists; (split; [|reflexivity]); reflexivity.
Qed.

Section Loop.

Variables (timeout : option Z) (flag : bool)
  (dp : option (gmap string pyval))
  (npf : option (() → gmap string pyval)) (pe : option bool).

Local Abbreviation insert env :=
  (_insert_session_id_if_unique serialize env timeout (candidate env) flag
     dp npf pe).
Local Abbreviation create run :=
  (create_unique_session_id serialize run timeout flag dp npf pe).
Local Abbreviation after pre :=
  (server_after_attempts serialize timeout flag dp npf pe pre).

Lemma create_retry env rest s s' :
  insert env s = (Ok None, s') → create (env :: rest) s = create rest s'.
Proof. simpl. by intros ->. Qed.

Lemma create_return env rest s id s' :
  insert env s = (Ok (Some id), s') →
  create (env :: rest) s = Some (Ok id, s').
Proof. simpl. by intros ->. Qed.

Lemma create_split run : ∀ s r s',
  create run s = Some (r, s') →
  ∃ pre env post,
    run = (pre ++ env :: post)%list
    ∧ create pre s = None
    ∧ ((∃ id, r = Ok id ∧ insert env (after pre s) = (Ok (Some id), s'))
       ∨ (∃ e, r = Raise e ∧ insert env (after pre s) = (Raise e, s'))).
Proof.
  induction run as [|env run IH]; intros s r s' Hrun; [done|].
  simpl in Hrun.
  destruct (_insert_session_id_if_unique serialize env timeout
              (candidate env) flag dp npf pe s) as [[[id|]|e] s1] eqn:Hins.
  - injection Hrun as <- <-. exists [], env, run.
    split; [done|]. split; [done|].
    left. exists id. split; [done|]. exact Hins.
  - destruct (IH s1 r s' Hrun) as (pre & env' & post & -> & Hpre & Hlast).
    exists (env :: pre), env', post. split; [done|]. split.
    { simpl. by rewrite Hins. }
    unfold server_after_attempts. simpl. rewrite Hins. exact Hlast.
  - injection Hrun as <- <-. exists [], env, run.
    split; [done|]. split; [done|].
    right. exists e. split; [done|]. exact Hins.
Qed.

End Loop.

(** A writer of the same key between the GET and the EXEC of an attempt is
    a watch conflict: of two racing creators of one id, one is turned
    away. *)
Lemma racing_writer_conflicts env session_id value s :
  SET session_id value ∈ before_exec env →
  watch_conflict env session_id s = true.
Proof.
  intros Hin. unfold watch_conflict. apply orb_true_iff. right.
  generalize (server_at_get env s) as s0.
  induction (before_exec env) as [|c cs IH]; intros s0;
    [by apply elem_of_nil in Hin|].
  cbn [touched_by].
  apply elem_of_cons in Hin as [<-|Hin].
  - cbn [command_key modifies].
    by rewrite bool_decide_eq_true_2 by (by apply list_elem_of_singleton).
  - rewrite (IH Hin). apply orb_true_r.
Qed.

(** C1: in every run of [create_unique_session_id], an attempt that finds
    the candidate key holding a value, or whose commit meets a watch
    conflict, yields [None] without an error and without writing, and the
    loop goes on with the next generated id; an id the loop returns is
    the candidate of an attempt -- the loop not having ended in the
    attempts before it -- that observed the key absent under its watch,
    met no conflict, and committed its write of the serialized payload
    under that key. *)
Theorem create_unique_session_id_retries (timeout : option Z)
    (flag : bool) (dp : option (gmap string pyval))
    (npf : option (() → gmap string pyval)) (pe : option bool) :
  (∀ env s,
     is_Some (keyspace (server_at_get env s) !! candidate env) →
     _insert_session_id_if_unique serialize env timeout (candidate env)
       flag dp npf pe s
     = (Ok None, server_at_get env s))
  ∧ (∀ env s,
       keyspace (server_at_get env s) !! candidate env = None →
       watch_conflict env (candidate env) s = true →
       _insert_session_id_if_unique serialize env timeout (candidate env)
         flag dp npf pe s
       = (Ok None, server_at_exec env s))
  ∧ (∀ env rest s s',
       _insert_session_id_if_unique serialize env timeout (candidate env)
         flag dp npf pe s = (Ok None, s') →
       create_unique_session_id serialize (env :: rest) timeout flag dp npf
         pe s
       = create_unique_session_id serialize rest timeout flag dp npf pe s')
  ∧ (∀ env rest s id s',
       _insert_session_id_if_unique serialize env timeout (candidate env)
         flag dp npf pe s = (Ok (Some id), s') →
       create_unique_session_id serialize (env :: rest) timeout flag dp npf
         pe s
       = Some (Ok id, s'))
  ∧ (∀ run s id s',
       create_unique_session_id serialize run timeout flag dp npf pe s
       = Some (Ok id, s') →
       ∃ pre env post,
         run = (pre ++ env :: post)%list
         ∧ create_unique_session_id serialize pre timeout flag dp npf pe s
           = None
         ∧ id = candidate env
         ∧ let s0 :=
             server_after_attempts serialize timeout flag dp npf pe pre s in
           keyspace (server_at_get env s0) !! id = None
           ∧ watch_conflict env id s0 = false
           ∧ e_value <$> keyspace s' !! id
             = Some (serialize (initial_payload env timeout dp npf pe))
           ∧ ∃ write, command_key write = id
                      ∧ journal s' = write :: journal (server_at_exec env s0)).
Proof.
  split; [|split; [|split; [|split]]].
  - intros env s. apply insert_occupied.
  - intros env s. apply insert_conflict.
  - intros env rest s s'. apply create_retry.
  - intros env rest s id s'. apply create_return.
  - intros run s id s' Hrun.
    apply create_split in Hrun
      as (pre & env & post & -> & Hpre & [(id' & Hid & Hins)|(e & ? & _)]);
      [|done].
    injection Hid as <-.
    apply insert_committed in Hins as (-> & Habs & Hc & Hval & Hw).
    exists pre, env, post. by repeat split.
Qed.

(** C5: for every allocation (an attempt that finds the key absent and
    meets no conflict): when timeout is a positive value and
    set_redis_ttl is set, the one command written is SETEX, storing the
    value and the key's TTL together; when timeout is unset or zero, or
    the flag is false, the one command written is a plain SET and the key
    has no TTL. *)
Theorem initial_write_sets_ttl (env : attempt) (timeout : option Z)
    (session_id : string) (flag : bool) (dp : option (gmap string pyval))
    (npf : option (() → gmap string pyval)) (pe : option bool)
    (s : server) :
  keyspace (server_at_get env s) !! session_id = None →
  watch_conflict env session_id s = false →
  let _payload := serialize (initial_payload env timeout dp npf pe) in
  let s3 := server_at_exec env s in
  (∀ t, timeout = Some t → 0 < t → flag = true →
     _insert_session_id_if_unique serialize env timeout session_id flag dp
       npf pe s
     = (Ok (Some session_id),
        Server (<[session_id := Entry _payload (Some t)]> (keyspace s3))
               (SETEX session_id t _payload :: journal s3)))
  ∧ (timeout = None ∨ timeout = Some 0 ∨ flag = false →
     _insert_session_id_if_unique serialize env timeout session_id flag dp
       npf pe s
     = (Ok (Some session_id),
        Server (<[session_id := Entry _payload None]> (keyspace s3))
               (SET session_id _payload :: journal s3))).
Proof.
  intros Habs Hc _payload s3. rewrite insert_absent, Hc by done.
  fold _payload s3. split.
  - intros t -> Ht ->. simpl.
    destruct (Z.eqb_spec t 0); [lia|]. simpl.
    destruct (Z.ltb_spec 0 t); [done | lia].
  - intros [->|[->| ->]]; [done..|].
    destruct timeout as [t|]; [|done]. by rewrite andb_false_r.
Qed.

End AllocatorProperties.

(** ** The id generator *)

Example token_ex1 :
  token_urlsafe (fun _ => Byte.xff) 4 = "_____w".
Proof. reflexivity. Qed.

Example token_ex2 :
  token_urlsafe (fun i => nth i [Byte.x4d; Byte.x61; Byte.x6e] Byte.x00) 3
  = "TWFu".
Proof. reflexivity. Qed.

Lemma list_ind3 {A} (P : list A → Prop) :
  P [] → (∀ a, P [a]) → (∀ a b, P [a; b]) →
  (∀ a b c l, P l → P (a :: b :: c :: l)) →
  ∀ l, P l.
Proof.
  intros H0 H1 H2 H3 l.
  cut (P l ∧ (∀ a, P (a :: l)) ∧ (∀ a b, P (a :: b :: l))); [tauto|].
  induction l as [|x l (IH0 & IH1 & IH2)]; [by repeat split|].
  split; [apply IH1|]. split; [intros a; apply IH2|].
  intros a b. by apply H3.
Qed.

Lemma b64_char_index (n : N) :
  (n < 64)%N →
  b64_index (b64_char n) = n
  ∧ b64_char n ∈ urlsafe_alphabet
  ∧ b64_char n ≠ "="%char.
Proof.
  intros Hn. unfold b64_char, b64_index.
  assert (Hk : (N.to_nat n < 64)%nat) by lia.
  rewrite <- (N2Nat.id n) at 2. generalize dependent (N.to_nat n).
  intros k Hk.
  do 64 (destruct k as [|k];
         [split; [reflexivity|]; split;
            [apply list_elem_of_In; vm_compute; tauto | discriminate]|]).
  lia.
Qed.

Lemma b64_char_inj (n m : N) :
  (n < 64)%N → (m < 64)%N → b64_char n = b64_char m → n = m.
Proof.
  intros Hn Hm Heq.
  destruct (b64_char_index n Hn) as [<- _].
  destruct (b64_char_index m Hm) as [<- _]. by rewrite Heq.
Qed.

Lemma byte_lt_256 (b : Byte.byte) : (Byte.to_N b < 256)%N.
Proof. pose proof (Byte.to_N_bounded b). lia. Qed.

Lemma byte_to_N_inj (a b : Byte.byte) : Byte.to_N a = Byte.to_N b → a = b.
Proof.
  intros Heq. pose proof (Byte.of_to_N a) as Ha.
  rewrite Heq, Byte.of_to_N in Ha. by injection Ha.
Qed.


(** Linear arithmetic with division and remainder by constants. *)
Ltac div_lia := zify; Z.to_euclidean_division_equations; lia.

Lemma b64_char_text (n : N) : (n < 64)%N → url_text (b64_char n).
Proof. intros Hn. by destruct (b64_char_index n Hn) as (_ & ? & ?). Qed.

Lemma b64_quad_text a b c : Forall url_text (b64_quad a b c).
Proof.
  pose proof (byte_lt_256 a). pose proof (byte_lt_256 b).
  pose proof (byte_lt_256 c).
  unfold b64_quad.
  repeat (apply Forall_cons_2; [apply b64_char_text; div_lia|]).
  apply Forall_nil_2.
Qed.

Lemma sextets_inj (x y z x' y' z' : N) :
  (x < 256)%N → (y < 256)%N → (z < 256)%N →
  (x' < 256)%N → (y' < 256)%N → (z' < 256)%N →
  (x / 4 = x' / 4)%N →
  (x mod 4 * 16 + y / 16 = x' mod 4 * 16 + y' / 16)%N →
  (y mod 16 * 4 + z / 64 = y' mod 16 * 4 + z' / 64)%N →
  (z mod 64 = z' mod 64)%N →
  x = x' ∧ y = y' ∧ z = z'.
Proof.
  intros Hx Hy Hz Hx' Hy' Hz' E1 E2 E3 E4.
  assert (x = x') by (clear E3 E4 Hz Hz'; div_lia). subst x'.
  assert (y = y') by (clear E1 E4; div_lia). subst y'.
  assert (z = z') by (clear E1 E2; div_lia). done.
Qed.

Lemma b64_quad_inj a b c a' b' c' :
  b64_quad a b c = b64_quad a' b' c' → a = a' ∧ b = b' ∧ c = c'.
Proof.
  pose proof (byte_lt_256 a) as Ha. pose proof (byte_lt_256 b) as Hb.
  pose proof (byte_lt_256 c) as Hc. pose proof (byte_lt_256 a') as Ha'.
  pose proof (byte_lt_256 b') as Hb'. pose proof (byte_lt_256 c') as Hc'.
  unfold b64_quad. intros [= E1 E2 E3 E4].
  apply b64_char_inj in E1; [|div_lia..].
  apply b64_char_inj in E2; [|div_lia..].
  apply b64_char_inj in E3; [|div_lia..].
  apply b64_char_inj in E4; [|div_lia..].
  destruct (sextets_inj _ _ _ _ _ _ Ha Hb Hc Ha' Hb' Hc' E1 E2 E3 E4)
    as (Ea & Eb & Ec).
  by apply byte_to_N_inj in Ea, Eb, Ec.
Qed.

Lemma encode_aligned_text (bs : list Byte.byte) :
  (length bs mod 3 = 0)%nat →
  Forall url_text (urlsafe_b64encode bs)
  ∧ (3 * length (urlsafe_b64encode bs) = 4 * length bs)%nat.
Proof.
  induction bs as [|a|a b|a b c bs IH] using list_ind3.
  - by split; [constructor|].
  - simpl. discriminate.
  - simpl. discriminate.
  - intros Hlen.
    change (urlsafe_b64encode (a :: b :: c :: bs))
      with (b64_quad a b c ++ urlsafe_b64encode bs)%list.
    destruct IH as [IH1 IH2].
    { cbn [length] in Hlen.
      replace (S (S (S (length bs)))) with (length bs + 1 * 3)%nat in Hlen
        by lia.
      by rewrite Nat.Div0.mod_add in Hlen. }
    split.
    + apply Forall_app. split; [apply b64_quad_text | done].
    + rewrite length_app. cbn [length b64_quad]. lia.
Qed.

Lemma encode_aligned_inj (bs : list Byte.byte) : ∀ bs',
  (length bs mod 3 = 0)%nat → (length bs' mod 3 = 0)%nat →
  urlsafe_b64encode bs = urlsafe_b64encode bs' → bs = bs'.
Proof.
  induction bs as [|a|a b|a b c bs IH] using list_ind3; intros bs' H1 H2 Heq.
  - destruct bs' as [|a' [|b' [|c' bs']]]; try done.
  - simpl in H1. discriminate.
  - simpl in H1. discriminate.
  - destruct bs' as [|a' [|b' [|c' bs']]]; try done.
    change (b64_quad a b c ++ urlsafe_b64encode bs
            = b64_quad a' b' c' ++ urlsafe_b64encode bs')%list in Heq.
    apply app_inj_1 in Heq as [Hq Hrest]; [|reflexivity].
    apply b64_quad_inj in Hq as (-> & -> & ->).
    f_equal. f_equal. f_equal. apply IH; [| |done].
    + cbn [length] in H1.
      replace (S (S (S (length bs)))) with (length bs + 1 * 3)%nat in H1
        by lia.
      by rewrite Nat.Div0.mod_add in H1.
    + cbn [length] in H2.
      replace (S (S (S (length bs')))) with (length bs' + 1 * 3)%nat in H2
        by lia.
      by rewrite Nat.Div0.mod_add in H2.
Qed.

Lemma rstrip_pad_text (cs : list ascii) :
  Forall url_text cs → rstrip_pad cs = cs.
Proof.
  induction 1 as [|c cs [_ Hc] _ IH]; [done|].
  simpl. rewrite IH. destruct cs; [|done].
  destruct (Ascii.eqb_spec c "="%char); [done | reflexivity].
Qed.

Lemma length_string_of_list_ascii (cs : list ascii) :
  String.length (string_of_list_ascii cs) = length cs.
Proof. induction cs as [|c cs IH]; simpl; [done | by rewrite IH]. Qed.

Lemma map_seq_ext {A} (f g : nat → A) (n : nat) :
  map f (seq 0 n) = map g (seq 0 n) ↔ ∀ i, (i < n)%nat → f i = g i.
Proof.
  split.
  - intros Heq i Hi.
    assert (H : nth i (map f (seq 0 n)) (f 0%nat)
                = nth i (map g (seq 0 n)) (f 0%nat)) by by rewrite Heq.
    rewrite (nth_indep (map g (seq 0 n)) (f 0%nat) (g 0%nat)) in H
      by (rewrite length_map, length_seq; lia).
    by rewrite !map_nth, !seq_nth in H by lia.
  - intros Hext. apply map_ext_in. intros i Hi.
    apply in_seq in Hi. apply Hext. lia.
Qed.

(** C6: for every call -- every 48 bytes the secure source hands over --
    the id of the default generator is the URL-safe text of exactly those
    48 bytes (384 bits): 64 characters, all of the URL-safe alphabet, none
    of them the padding character, and two calls give the same id only
    when their 48 bytes are the same. *)
Theorem generate_session_id_entropy (entropy : nat → Byte.byte) :
  String.length (_generate_session_id entropy) = 64%nat
  ∧ Forall (λ c, c ∈ urlsafe_alphabet)
      (list_ascii_of_string (_generate_session_id entropy))
  ∧ ("="%char ∉ list_ascii_of_string (_generate_session_id entropy))
  ∧ ∀ entropy',
      _generate_session_id entropy' = _generate_session_id entropy
      ↔ (∀ i, (i < 48)%nat → entropy' i = entropy i).
Proof.
  assert (Htext : ∀ e, Forall url_text
                         (urlsafe_b64encode (map e (seq 0 48)))
                       ∧ list_ascii_of_string (_generate_session_id e)
                         = urlsafe_b64encode (map e (seq 0 48))).
  { intros e.
    destruct (encode_aligned_text (map e (seq 0 48))) as [Ht _];
      [by rewrite length_map, length_seq|].
    split; [done|]. unfold _generate_session_id, token_urlsafe.
    by rewrite list_ascii_of_string_of_list_ascii, rstrip_pad_text. }
  destruct (Htext entropy) as [Ht Hid].
  split; [|split; [|split]].
  - rewrite <- (string_of_list_ascii_of_string (_generate_session_id entropy)).
    rewrite length_string_of_list_ascii, Hid.
    destruct (encode_aligned_text (map entropy (seq 0 48))) as [_ Hlen];
      [by rewrite length_map, length_seq|].
    rewrite length_map, length_seq in Hlen. lia.
  - rewrite Hid. eapply Forall_impl; [exact Ht|]. by intros c [? _].
  - rewrite Hid. intros Hin.
    rewrite Forall_forall in Ht. by destruct (Ht _ Hin) as [_ ?].
  - intros entropy'. rewrite <- map_seq_ext. split.
    + intros Heq. apply (f_equal list_ascii_of_string) in Heq.
      rewrite Hid in Heq. destruct (Htext entropy') as [_ Hid'].
      rewrite Hid' in Heq.
      apply encode_aligned_inj in Heq;
        [done | by rewrite length_map, length_seq..].
    + intros Heq. unfold _generate_session_id, token_urlsafe.
      by rewrite Heq.
Qed.

(** ** The settings parser *)

Lemma coerce_key_None f k (options : gmap string pyval) :
  options !! k = None → coerce_key f k options = Ok options.
Proof. intros H. unfold coerce_key. by rewrite H. Qed.

Lemma coerce_key_Some f k (options : gmap string pyval) v :
  options !! k = Some v →
  coerce_key f k options = f v ≫= λ v', Ok (<[k := v']> options).
Proof. intros H. unfold coerce_key. by rewrite H. Qed.

Lemma for_each_coerce_spec (f : pyval → result pyval) (keys : list string) :
  NoDup keys → ∀ options,
  (∃ options',
     for_each (coerce_key f) keys options = Ok options'
     ∧ (∀ k, k ∉ keys → options' !! k = options !! k)
     ∧ (∀ k, k ∈ keys →
             (options !! k = None ∧ options' !! k = None)
             ∨ (∃ v v', options !! k = Some v ∧ f v = Ok v'
                        ∧ options' !! k = Some v')))
  ∨ (∃ k v e, k ∈ keys ∧ options !! k = Some v ∧ f v = Raise e
              ∧ for_each (coerce_key f) keys options = Raise e).
Proof.
  induction keys as [|k keys IH]; intros Hnd options.
  - left. exists options. split; [done|]. split; [done|].
    intros k Hk. by apply elem_of_nil in Hk.
  - apply NoDup_cons in Hnd as [Hk Hnd]. cbn [for_each].
    destruct (options !! k) as [v|] eqn:Hv;
      [rewrite (coerce_key_Some _ _ _ _ Hv)
      |rewrite (coerce_key_None _ _ _ Hv)].
    + destruct (f v) as [v'|e] eqn:Hf; simpl.
      * destruct (IH Hnd (<[k := v']> options))
          as [(options' & Hrun & Hout & Hin)|(k' & w & e & Hk' & Hw & He & Hrun)].
        -- left. exists options'. split; [done|]. split.
           ++ intros k' Hk'. apply not_elem_of_cons in Hk' as [Hne Hk'].
              rewrite (Hout k' Hk'). by rewrite lookup_insert_ne.
           ++ intros k' Hk'. apply elem_of_cons in Hk' as [->|Hk'].
              ** right. exists v, v'. split; [done|]. split; [done|].
                 rewrite (Hout k Hk). by rewrite lookup_insert_eq.
              ** assert (k ≠ k') by (by intros ->).
                 destruct (Hin k' Hk') as [[H1 H2]|(w & w' & H1 & H2 & H3)].
                 --- left. by rewrite lookup_insert_ne in H1.
                 --- right. exists w, w'. by rewrite lookup_insert_ne in H1.
        -- right. exists k', w, e. split; [by apply elem_of_cons; right|].
           assert (k ≠ k') by (by intros ->).
           by rewrite lookup_insert_ne in Hw.
      * right. exists k, v, e. split; [by apply elem_of_cons; left | done].
    + simpl.
      destruct (IH Hnd options)
        as [(options' & Hrun & Hout & Hin)|(k' & w & e & Hk' & Hw & He & Hrun)].
      * left. exists options'. split; [done|]. split.
        -- intros k' Hk'. apply not_elem_of_cons in Hk' as [Hne Hk'].
           by apply Hout.
        -- intros k' Hk'. apply elem_of_cons in Hk' as [->|Hk'].
           ++ left. split; [done|]. by rewrite (Hout k Hk).
           ++ by apply Hin.
      * right. exists k', w, e. split; [by apply elem_of_cons; right | done].
Qed.

Ltac concrete_key := apply (bool_decide_unpack _); vm_compute; exact I.

Ltac key_cases H :=
  repeat (apply elem_of_cons in H as [->|H]);
  [..|by apply elem_of_nil in H].

Section Settings.

Context `{Externals}.

Lemma parse_settings_unfold settings :
  _parse_settings settings
  = if credentials_misconfigured (collect_options settings)
    then Raise (ConfigurationError secret_cookiesigner_error)
    else
      options ← coerce_options (collect_options settings);
      if prefix_conflict options
      then Raise (ConfigurationError prefix_generator_error)
      else
        match options !! "prefix" with
        | Some prefix =>
            Ok (<["id_generator" := VPartial "prefixed_id" prefix]>
                  (delete "prefix" options))
        | None => Ok options
        end.
Proof.
  unfold _parse_settings, coerce_options.
  fold (collect_options settings).
  change ((truthy (py_get (collect_options settings) "secret",
                   py_get (collect_options settings) "cookie_signer").1
           && truthy (py_get (collect_options settings) "secret",
                      py_get (collect_options settings) "cookie_signer").2)
          || negb (truthy (py_get (collect_options settings) "secret",
                           py_get (collect_options settings) "cookie_signer").1
                   || truthy (py_get (collect_options settings) "secret",
                              py_get (collect_options settings)
                                "cookie_signer").2))
    with (credentials_misconfigured (collect_options settings)).
  destruct (credentials_misconfigured (collect_options settings)); [done|].
  destruct (for_each _ configs_bool (collect_options settings))
    as [o1|]; rewrite ?result_bind_Ok, ?result_bind_Raise; [|done].
  destruct (for_each (coerce_key int_) configs_int o1)
    as [o2|]; rewrite ?result_bind_Ok, ?result_bind_Raise; [|done].
  destruct (for_each (coerce_key int_or_none) configs_int_none o2)
    as [o3|]; rewrite ?result_bind_Ok, ?result_bind_Raise; [|done].
  by destruct (coerce_key float_ "socket_timeout" o3).
Qed.

Lemma int_raises v e :
  int_ v = Raise e ↔ py_int v = None ∧ e = coercion_error v.
Proof.
  unfold int_. destruct (py_int v); split; try done.
  - by intros [? _].
  - by intros [= <-].
  - by intros [_ ->].
Qed.

Lemma is_none_string_spec v : is_none_string v = true ↔ v = VStr "None".
Proof.
  destruct v as [| | | |s| | |]; simpl; try (split; discriminate).
  destruct (String.eqb_spec s "None") as [->|Hs]; split; try done.
  by intros [= ->].
Qed.

Lemma int_or_none_raises v e :
  int_or_none v = Raise e
  ↔ v ≠ VStr "None" ∧ py_int v = None ∧ e = coercion_error v.
Proof.
  unfold int_or_none.
  destruct (is_none_string v) eqn:Hv.
  - apply is_none_string_spec in Hv. split; [done | by intros [? _]].
  - assert (v ≠ VStr "None").
    { intros Heq. apply is_none_string_spec in Heq. congruence. }
    unfold int_. destruct (py_int v) as [z|]; simpl.
    + destruct (negb (negb (Z.eqb z 0))); split; try done;
        by intros (_ & ? & _).
    + split; [by intros [= <-] | by intros (_ & _ & ->)].
Qed.

Lemma int_or_none_returns v v' :
  int_or_none v = Ok v' →
  (v = VStr "None" ∧ v' = VNone)
  ∨ (v ≠ VStr "None" ∧ py_int v = Some 0 ∧ v' = VNone)
  ∨ (∃ z, v ≠ VStr "None" ∧ py_int v = Some z ∧ z ≠ 0 ∧ v' = VInt z).
Proof.
  unfold int_or_none.
  destruct (is_none_string v) eqn:Hv.
  - apply is_none_string_spec in Hv. intros [= <-]. by left.
  - assert (v ≠ VStr "None").
    { intros Heq. apply is_none_string_spec in Heq. congruence. }
    unfold int_. destruct (py_int v) as [z|]; simpl; [|done].
    destruct (Z.eqb_spec z 0) as [->|Hz]; simpl; intros [= <-].
    + right; left. done.
    + right; right. by exists z.
Qed.

Lemma bool_phase options :
  ∃ o1, for_each (coerce_key (λ v, Ok (VBool (asbool v)))) configs_bool
          options = Ok o1
        ∧ ∀ k, k ∉ configs_bool → o1 !! k = options !! k.
Proof.
  destruct (for_each_coerce_spec (λ v, Ok (VBool (asbool v))) configs_bool
              ltac:(concrete_key) options)
    as [(o1 & Hrun & Hout & _)|(k & v & e & _ & _ & He & _)]; [|done].
  by exists o1.
Qed.

Lemma float_raises v e :
  float_ v = Raise e ↔ py_float v = None ∧ e = coercion_error v.
Proof.
  unfold float_. destruct (py_float v); split; try done.
  - by intros [? _].
  - by intros [= <-].
  - by intros [_ ->].
Qed.

Lemma coercion_error_kind v :
  coercion_error v = ValueError ∨ coercion_error v = TypeError.
Proof. destruct v; simpl; auto. Qed.

(** The outcome of the four coercion steps. *)
Lemma coerce_options_spec options :
  (∃ o, coerce_options options = Ok o
        ∧ ¬ uncoercible options
        ∧ o !! "prefix" = options !! "prefix"
        ∧ o !! "id_generator" = options !! "id_generator"
        ∧ ∀ k, k ∈ configs_int_none →
               (options !! k = None ∧ o !! k = None)
               ∨ (∃ v v', options !! k = Some v ∧ int_or_none v = Ok v'
                          ∧ o !! k = Some v'))
  ∨ (∃ e, coerce_options options = Raise e
          ∧ uncoercible options
          ∧ (e = ValueError ∨ e = TypeError)).
Proof.
  unfold coerce_options.
  destruct (bool_phase options) as (o1 & -> & H1).
  rewrite result_bind_Ok.
  destruct (for_each_coerce_spec int_ configs_int ltac:(concrete_key) o1)
    as [(o2 & -> & H2 & H2')|(k & v & e & Hk & Hv & He & ->)];
    rewrite ?result_bind_Ok, ?result_bind_Raise.
  2:{ right. exists e. split; [done|].
      apply int_raises in He as [Hint ->].
      split; [|apply coercion_error_kind].
      left. exists k, v. split; [done|]. split; [|done].
      rewrite <- Hv. symmetry. apply H1. key_cases Hk; concrete_key. }
  destruct (for_each_coerce_spec int_or_none configs_int_none
              ltac:(concrete_key) o2)
    as [(o3 & -> & H3 & H3')|(k & v & e & Hk & Hv & He & ->)];
    rewrite ?result_bind_Ok, ?result_bind_Raise.
  2:{ right. exists e. split; [done|].
      apply int_or_none_raises in He as (Hne & Hint & ->).
      split; [|apply coercion_error_kind].
      right; left. exists k, v. split; [done|]. split; [|done].
      rewrite <- Hv, H2, H1; [done|..]; key_cases Hk; concrete_key. }
  assert (Hst : o3 !! "socket_timeout" = options !! "socket_timeout").
  { rewrite H3, H2, H1; [done|..]; concrete_key. }
  destruct (o3 !! "socket_timeout") as [v|] eqn:Hv.
  - rewrite (coerce_key_Some _ _ _ _ Hv).
    destruct (float_ v) as [v'|e] eqn:Hf; simpl.
    + left. exists (<["socket_timeout" := v']> o3). split; [done|].
      split; [|split; [|split]].
      * intros [(k & w & Hk & Hw & Hint)|[(k & w & Hk & Hw & Hne & Hint)
                                          |(w & Hw & Hfl)]].
        -- destruct (H2' k Hk) as [[Hn _]|(w1 & w2 & Hw1 & Hi & _)].
           ++ rewrite H1 in Hn; [congruence|]. key_cases Hk; concrete_key.
           ++ rewrite H1 in Hw1 by (key_cases Hk; concrete_key).
              rewrite Hw in Hw1. injection Hw1 as <-.
              unfold int_ in Hi. by rewrite Hint in Hi.
        -- destruct (H3' k Hk) as [[Hn _]|(w1 & w2 & Hw1 & Hi & _)].
           ++ rewrite H2, H1 in Hn; [congruence|..];
                key_cases Hk; concrete_key.
           ++ rewrite H2, H1 in Hw1 by (key_cases Hk; concrete_key).
              rewrite Hw in Hw1. injection Hw1 as <-.
              assert (int_or_none w = Raise (coercion_error w))
                by (by apply int_or_none_raises).
              congruence.
        -- rewrite <- Hst in Hw. injection Hw as <-.
           unfold float_ in Hf. by rewrite Hfl in Hf.
      * rewrite lookup_insert_ne by done.
        rewrite H3, H2, H1; [done|..]; concrete_key.
      * rewrite lookup_insert_ne by done.
        rewrite H3, H2, H1; [done|..]; concrete_key.
      * intros k Hk.
        rewrite lookup_insert_ne by (key_cases Hk; done).
        destruct (H3' k Hk) as [[Hn Hn']|(w1 & w2 & Hw1 & Hi & Hw2)].
        -- left. rewrite H2, H1 in Hn by (key_cases Hk; concrete_key). done.
        -- right. exists w1, w2.
           rewrite H2, H1 in Hw1 by (key_cases Hk; concrete_key). done.
    + right. exists e. split; [done|].
      apply float_raises in Hf as [Hfl ->].
      split; [|apply coercion_error_kind].
      right; right. exists v. by rewrite <- Hst.
  - rewrite (coerce_key_None _ _ _ Hv).
    left. exists o3. split; [done|]. split; [|split; [|split]].
    * intros [(k & w & Hk & Hw & Hint)|[(k & w & Hk & Hw & Hne & Hint)
                                        |(w & Hw & Hfl)]].
      -- destruct (H2' k Hk) as [[Hn _]|(w1 & w2 & Hw1 & Hi & _)].
         ++ rewrite H1 in Hn; [congruence|]. key_cases Hk; concrete_key.
         ++ rewrite H1 in Hw1 by (key_cases Hk; concrete_key).
            rewrite Hw in Hw1. injection Hw1 as <-.
            unfold int_ in Hi. by rewrite Hint in Hi.
      -- destruct (H3' k Hk) as [[Hn _]|(w1 & w2 & Hw1 & Hi & _)].
         ++ rewrite H2, H1 in Hn; [congruence|..];
              key_cases Hk; concrete_key.
         ++ rewrite H2, H1 in Hw1 by (key_cases Hk; concrete_key).
            rewrite Hw in Hw1. injection Hw1 as <-.
            assert (int_or_none w = Raise (coercion_error w))
              by (by apply int_or_none_raises).
            congruence.
      -- congruence.
    * rewrite H3, H2, H1; [done|..]; concrete_key.
    * rewrite H3, H2, H1; [done|..]; concrete_key.
    * intros k Hk.
      destruct (H3' k Hk) as [[Hn Hn']|(w1 & w2 & Hw1 & Hi & Hw2)].
      -- left. rewrite H2, H1 in Hn by (key_cases Hk; concrete_key). done.
      -- right. exists w1, w2.
         rewrite H2, H1 in Hw1 by (key_cases Hk; concrete_key). done.
Qed.

(** C8, amended: [_parse_settings] raises a configuration error when the
    signing credentials are misconfigured (neither or both of secret and
    cookie_signer given); otherwise, when a setting of integer or float
    type is present with a value that does not coerce, it raises the
    [ValueError] or [TypeError] of the coercion; otherwise it raises a
    configuration error when both an id generator and a key prefix are
    configured; and otherwise it returns the coerced options without
    raising.  The four cases exclude one another and leave no other. *)
Theorem parse_settings_outcome (settings : list (string * pyval)) :
  (credentials_misconfigured (collect_options settings) = true
   ∧ _parse_settings settings
     = Raise (ConfigurationError secret_cookiesigner_error))
  ∨ (credentials_misconfigured (collect_options settings) = false
     ∧ uncoercible (collect_options settings)
     ∧ ∃ e, _parse_settings settings = Raise e
            ∧ (e = ValueError ∨ e = TypeError))
  ∨ (credentials_misconfigured (collect_options settings) = false
     ∧ ¬ uncoercible (collect_options settings)
     ∧ prefix_conflict (collect_options settings) = true
     ∧ _parse_settings settings
       = Raise (ConfigurationError prefix_generator_error))
  ∨ (credentials_misconfigured (collect_options settings) = false
     ∧ ¬ uncoercible (collect_options settings)
     ∧ prefix_conflict (collect_options settings) = false
     ∧ ∃ options, _parse_settings settings = Ok options).
Proof.
  rewrite parse_settings_unfold.
  destruct (credentials_misconfigured (collect_options settings));
    [by left | right].
  destruct (coerce_options_spec (collect_options settings))
    as [(o & -> & Hco & Hp & Hg & _)|(e & -> & Hun & He)].
  - right. rewrite result_bind_Ok.
    assert (Hc : prefix_conflict o
                 = prefix_conflict (collect_options settings)).
    { unfold prefix_conflict. by rewrite Hp, Hg. }
    rewrite Hc.
    destruct (prefix_conflict (collect_options settings)); [by left|].
    right. split; [done|]. split; [done|]. split; [done|].
    destruct (o !! "prefix"); by eexists.
  - left. split; [done|]. split; [done|]. by exists e.
Qed.

(** C10: in an options mapping that [_parse_settings] returns, each of
    timeout and timeout_trigger is absent (when not configured), [None],
    or a nonzero integer -- never 0: the string "None" and every value
    that coerces to the integer zero are normalized to [None]. *)
Theorem parse_settings_timeout_never_zero (settings : list (string * pyval))
    (options : gmap string pyval) (k : string) :
  _parse_settings settings = Ok options →
  k ∈ configs_int_none →
  (collect_options settings !! k = None → options !! k = None)
  ∧ (collect_options settings !! k = Some (VStr "None") →
     options !! k = Some VNone)
  ∧ (∀ v, collect_options settings !! k = Some v → py_int v = Some 0 →
          options !! k = Some VNone)
  ∧ (options !! k = None
     ∨ options !! k = Some VNone
     ∨ ∃ z, z ≠ 0 ∧ options !! k = Some (VInt z)).
Proof.
  rewrite parse_settings_unfold. intros Hparse Hk.
  destruct (credentials_misconfigured (collect_options settings));
    [done|].
  destruct (coerce_options_spec (collect_options settings))
    as [(o & Hco & _ & _ & _ & Hkeys)|(e & Hco & _)];
    rewrite Hco in Hparse; [|done].
  rewrite result_bind_Ok in Hparse.
  assert (Hlook : options !! k = o !! k).
  { destruct (prefix_conflict o); [done|].
    destruct (o !! "prefix") as [prefix|]; apply Ok_inj in Hparse as <-;
      [|done].
    rewrite lookup_insert_ne by (key_cases Hk; done).
    by rewrite lookup_delete_ne by (key_cases Hk; done). }
  rewrite Hlook.
  destruct (Hkeys k Hk) as [[Hn Hn']|(v & v' & Hv & Hi & Hv')].
  - rewrite Hn, Hn'. repeat split; try done. by left.
  - rewrite Hv, Hv'.
    apply int_or_none_returns in Hi
      as [[-> ->]|[(Hne & Hz & ->)|(z & Hne & Hz & Hnz & ->)]].
    + repeat split; try done. by right; left.
    + repeat split; try done. by right; left.
    + split; [done|]. split; [by intros [= ?]|]. split.
      * intros w [= <-] Hw. congruence.
      * right; right. by exists z.
Qed.

End Settings.

Example parse_ex1 :
  _parse_settings
    [ ("redis.sessions.secret", VStr "s3cret");
      ("redis.sessions.timeout", VStr " 0 ");
      ("redis.sessions.port", VStr "6379");
      ("redis.sessions.cookie_secure", VStr " Yes");
      ("unrelated.key", VStr "x");
      ("redis.sessions.prefix", VStr "session:") ]
  = Ok (<["id_generator" := VPartial "prefixed_id" (VStr "session:")]>
        (<["cookie_secure" := VBool true]>
         (<["port" := VInt 6379]>
          (<["timeout" := VNone]>
           (<["secret" := VStr "s3cret"]> ∅))))).
Proof. vm_compute. reflexivity. Qed.

(** C8, as stated, fails: with the signing credentials in order and no
    prefix, a port that is not a number makes [_parse_settings] raise a
    [ValueError] instead of returning the options; and with both a prefix
    and an id generator configured, the same port makes it raise that
    [ValueError], not a configuration error. *)
Lemma parse_settings_counterexample :
  _parse_settings
    [ ("redis.sessions.secret", VStr "s3cret");
      ("redis.sessions.port", VStr "abc") ]
  = Raise ValueError
  ∧ _parse_settings
      [ ("redis.sessions.secret", VStr "s3cret");
        ("redis.sessions.prefix", VStr "session:");
        ("redis.sessions.id_generator", VCallable "my_generator");
        ("redis.sessions.port", VStr "abc") ]
    = Raise ValueError.
Proof. split; vm_compute; reflexivity. Qed.

Lemma parse_settings_timeout_never_zero_witness :
  (<["timeout_trigger" := VNone]>
     (<["timeout" := VNone]> (<["secret" := VStr "s3cret"]> ∅))
   : gmap string pyval) !! "timeout" = Some VNone.
Proof.
  refine (proj1 (proj2 (proj2
    (parse_settings_timeout_never_zero
       [ ("redis.sessions.secret", VStr "s3cret");
         ("redis.sessions.timeout", VStr "0");
         ("redis.sessions.timeout_trigger", VStr "None") ]
       _ "timeout" _ _))) (VStr "0") _ _).
  - vm_compute. reflexivity.
  - concrete_key.
  - vm_compute. reflexivity.
  - vm_compute. reflexivity.
Defined.

(** A run of three iterations: the first candidate is taken, the second
    is written by a racing client between GET and EXEC, the third is
    committed. *)
Example create_unique_session_id_run :
  create_unique_session_id (λ _, "{}")
    [ Attempt "id1" 1000 [] [] [];
      Attempt "id2" 1000 [] [] [SET "id2" "theirs"];
      Attempt "id3" 1001 [] [] [] ]
    (Some 100) true None None None
    (Server (<["id1" := Entry "taken" None]> ∅) [])
  = Some (Ok "id3",
          Server (<["id3" := Entry "{}" (Some 100)]>
                    (<["id2" := Entry "theirs" None]>
                       (<["id1" := Entry "taken" None]> ∅)))
                 [SETEX "id3" 100 "{}"; SET "id2" "theirs"]).
Proof. vm_compute. reflexivity. Qed.

Lemma initial_write_sets_ttl_witness :
  _insert_session_id_if_unique (λ _, "{}") (Attempt "abc" 1000 [] [] [])
    (Some 100) "abc" true None None None (Server ∅ [])
  = (Ok (Some "abc"),
     Server (<["abc" := Entry "{}" (Some 100)]> ∅) [SETEX "abc" 100 "{}"]).
Proof.
  assert (Habs : keyspace (server_at_get (Attempt "abc" 1000 [] [] [])
                             (Server ∅ [])) !! "abc" = None)
    by reflexivity.
  assert (Hc : watch_conflict (Attempt "abc" 1000 [] [] []) "abc"
                 (Server ∅ []) = false)
    by reflexivity.
  apply (proj1 (initial_write_sets_ttl (λ _, "{}") (Attempt "abc" 1000 [] [] [])
                  (Some 100) "abc" true None None None (Server ∅ [])
                  Habs Hc)
           100 eq_refl ltac:(lia) eq_refl).
Defined.

Lemma expires_never_backward_witness :
  clock_ordered 1000
    [PersistEvent 1100 (VDict []) (Some 60);
     PersistEvent 1350 (VDict []) (Some 60)]
  ∧ lifecycle (Some 400) (Some true)
      (empty_session_payload 1000 (Some 400) (Some true))
      [PersistEvent 1100 (VDict []) (Some 60);
       PersistEvent 1350 (VDict []) (Some 60)]
    = Ok [ <["t" := VInt 400]> (<["x" := VInt 1400]> (<["v" := VInt 1]>
             (<["c" := VInt 1000]> (<["m" := VDict []]> ∅))));
           <["t" := VInt 400]> (<["x" := VInt 1750]> (<["v" := VInt 1]>
             (<["c" := VInt 1000]> (<["m" := VDict []]> ∅)))) ]
  ∧ 1400 ≤ 1750.
Proof.
  assert (Hclock : clock_ordered 1000
            [PersistEvent 1100 (VDict []) (Some 60);
             PersistEvent 1350 (VDict []) (Some 60)])
    by (simpl; lia).
  split; [exact Hclock|].
  match goal with
  | |- ?run = Ok [?p1; ?p2] ∧ _ =>
      assert (Hrun : run = Ok [p1; p2]) by reflexivity;
      split; [exact Hrun|];
      assert (Hp1 : (empty_session_payload 1000 (Some 400) (Some true)
                     :: [p1; p2]) !! 1%nat = Some p1) by reflexivity;
      assert (Hp2 : (empty_session_payload 1000 (Some 400) (Some true)
                     :: [p1; p2]) !! 2%nat = Some p2) by reflexivity;
      assert (Hx1 : p1 !! "x" = Some (VInt 1400)) by reflexivity;
      assert (Hx2 : p2 !! "x" = Some (VInt 1750)) by reflexivity;
      exact (proj2 (proj2
               (expires_never_backward 1000 (Some 400) (Some true) _ [p1; p2]
                  Hclock Hrun 1%nat p1 Hp1)) p2 1400 1750 Hp2 Hx1 Hx2)
  end.
Defined.

(** * Further properties *)

(** ** The payload codec, beyond the claims *)

(** X1: an empty session payload is the encoding of an empty managed_dict
    created now, with no prior expires and no trigger. *)
Theorem empty_session_payload_is_encode (time_now : Z) (timeout : option Z)
    (pe : option bool) :
  encode_session_payload time_now (VDict []) time_now timeout None None pe
  = Ok (empty_session_payload time_now timeout pe).
Proof.
  unfold encode_session_payload, empty_session_payload.
  destruct timeout as [t|]; [|reflexivity].
  destruct (truthy (VInt t)); [|reflexivity].
  destruct (truthy (of_bool_opt pe)); reflexivity.
Qed.

Lemma decode_present payload m c v :
  payload !! "m" = Some m → payload !! "c" = Some c →
  payload !! "v" = Some v →
  decode_session_payload payload
  = Ok (<["expires" := py_get payload "x"]>
        (<["timeout" := py_get payload "t"]>
         (<["version" := v]>
          (<["created" := c]> (<["managed_dict" := m]> ∅))))).
Proof.
  intros Hm Hc Hv. unfold decode_session_payload, py_getitem.
  by rewrite Hm, Hc, Hv.
Qed.

Lemma decoded_keys (m c v t x : pyval) (k : string) :
  is_Some ((<["expires" := x]>
            (<["timeout" := t]>
             (<["version" := v]>
              (<["created" := c]>
               (<["managed_dict" := m]> (∅ : gmap string pyval))))))
           !! k)
  ↔ k ∈ ["managed_dict"; "created"; "version"; "timeout"; "expires"].
Proof.
  split.
  - intros [w Hw]. rewrite !lookup_insert in Hw.
    repeat case_decide; subst; try concrete_key.
    by rewrite lookup_empty in Hw.
  - intros Hk. key_cases Hk; by eexists.
Qed.

(** X2: [decode_session_payload] returns exactly when the payload has the
    keys [m], [c] and [v]; otherwise it raises the [KeyError] of the first
    of them that is missing; a missing [t] or [x] is never an error and
    reads as [None]; the mapping returned has its five keys and no other. *)
Theorem decode_session_payload_keys (payload : gmap string pyval) :
  ((∃ d, decode_session_payload payload = Ok d)
   ↔ is_Some (payload !! "m") ∧ is_Some (payload !! "c")
     ∧ is_Some (payload !! "v"))
  ∧ (payload !! "m" = None →
     decode_session_payload payload = Raise (KeyError "m"))
  ∧ (is_Some (payload !! "m") → payload !! "c" = None →
     decode_session_payload payload = Raise (KeyError "c"))
  ∧ (is_Some (payload !! "m") → is_Some (payload !! "c") →
     payload !! "v" = None →
     decode_session_payload payload = Raise (KeyError "v"))
  ∧ (∀ d, decode_session_payload payload = Ok d →
          d !! "managed_dict" = payload !! "m"
          ∧ d !! "created" = payload !! "c"
          ∧ d !! "version" = payload !! "v"
          ∧ d !! "timeout" = Some (default VNone (payload !! "t"))
          ∧ d !! "expires" = Some (default VNone (payload !! "x"))
          ∧ ∀ k, is_Some (d !! k)
                 ↔ k ∈ ["managed_dict"; "created"; "version"; "timeout";
                        "expires"]).
Proof.
  assert (Hm_none : payload !! "m" = None →
            decode_session_payload payload = Raise (KeyError "m")).
  { intros H. unfold decode_session_payload, py_getitem. by rewrite H. }
  assert (Hc_none : is_Some (payload !! "m") → payload !! "c" = None →
            decode_session_payload payload = Raise (KeyError "c")).
  { intros [m Hm] H. unfold decode_session_payload, py_getitem.
    by rewrite Hm, H. }
  assert (Hv_none : is_Some (payload !! "m") → is_Some (payload !! "c") →
            payload !! "v" = None →
            decode_session_payload payload = Raise (KeyError "v")).
  { intros [m Hm] [c Hc] H. unfold decode_session_payload, py_getitem.
    by rewrite Hm, Hc, H. }
  assert (Hall : ∀ d, decode_session_payload payload = Ok d →
            ∃ m c v, payload !! "m" = Some m ∧ payload !! "c" = Some c
                     ∧ payload !! "v" = Some v).
  { intros d Hd.
    destruct (payload !! "m") as [m|] eqn:Hm;
      [|by rewrite Hm_none in Hd].
    destruct (payload !! "c") as [c|] eqn:Hc;
      [|by rewrite Hc_none in Hd].
    destruct (payload !! "v") as [v|] eqn:Hv;
      [|by rewrite Hv_none in Hd].
    by exists m, c, v. }
  split; [|split; [done|split; [done|split; [done|]]]].
  - split.
    + intros [d Hd]. destruct (Hall d Hd) as (m & c & v & -> & -> & ->).
      by repeat split.
    + intros ([m Hm] & [c Hc] & [v Hv]).
      rewrite (decode_present _ _ _ _ Hm Hc Hv). by eexists.
  - intros d Hd. destruct (Hall d Hd) as (m & c & v & Hm & Hc & Hv).
    rewrite (decode_present _ _ _ _ Hm Hc Hv) in Hd.
    apply Ok_inj in Hd as <-. rewrite Hm, Hc, Hv. unfold py_get.
    split; [reflexivity|]. split; [reflexivity|]. split; [reflexivity|].
    split; [reflexivity|]. split; [reflexivity|].
    intros k. apply decoded_keys.
Qed.

(** The payload [encode_session_payload] builds, by cases. *)
Lemma encode_shape time_now m c timeout expires trig pe p :
  encode_session_payload time_now m c timeout expires trig pe = Ok p →
  ∃ xo,
    p = (let base : gmap string pyval :=
           <["v" := VInt SESSION_API_VERSION]>
             (<["c" := VInt c]> (<["m" := m]> ∅)) in
         let with_t :=
           match stored_timeout timeout with
           | Some t => <["t" := VInt t]> base
           | None => base
           end in
         match xo with
         | Some x => <["x" := VInt x]> with_t
         | None => with_t
         end)
    ∧ (xo = None
       ∨ (xo = expires ∧ truthy (of_int_opt expires) = true
          ∧ truthy (of_bool_opt pe) = true
          ∧ (stored_timeout timeout = None
             ∨ recompute_due time_now expires trig = Ok false))
       ∨ (∃ t, stored_timeout timeout = Some t
               ∧ truthy (of_bool_opt pe) = true
               ∧ recompute_due time_now expires trig = Ok true
               ∧ xo = Some (time_now + t))).
Proof.
  unfold encode_session_payload, stored_timeout.
  destruct (truthy (of_bool_opt pe)) eqn:Hpe.
  - destruct expires as [x|]; [destruct (truthy (of_int_opt (Some x))) eqn:Hx|];
      (destruct timeout as [t|]; [destruct (truthy (VInt t)) eqn:Ht|]);
      cbn [andb of_int_opt truthy];
      try (destruct (recompute_due time_now _ trig) as [[]|] eqn:Hdue;
           cbn [mbind result_bind]);
      intros Hp; try discriminate; apply Ok_inj in Hp; subst p.
    all: try (exists (Some (time_now + t)); split; [reflexivity|];
              right; right; by exists t).
    all: try (exists (Some x); split; [reflexivity|]; right; left;
              repeat split; auto; fail).
    all: try (exists None; split; [reflexivity|]; by left).
  - rewrite andb_false_r.
    destruct timeout as [t|]; [destruct (truthy (VInt t))|];
      intros Hp; apply Ok_inj in Hp; subst p;
      (exists None; split; [reflexivity | by left]).
Qed.

(** X3: whatever the trigger and the tracking, a payload that
    [encode_session_payload] produces decodes without error to the
    managed_dict and created it was given, the current version, the timeout
    unless it was zero, and the expires the payload holds. *)
Theorem decode_of_encode (time_now : Z) (m : pyval) (c : Z)
    (timeout expires trig : option Z) (pe : option bool)
    (p : gmap string pyval) :
  encode_session_payload time_now m c timeout expires trig pe = Ok p →
  ∃ xo, p !! "x" = VInt <$> xo
        ∧ decode_session_payload p
          = Ok (decoded_record m c (stored_timeout timeout) xo).
Proof.
  intros Hp. apply encode_shape in Hp as (xo & -> & _).
  exists xo. destruct xo as [x|], (stored_timeout timeout) as [t|];
    split; reflexivity.
Qed.

Lemma decode_of_encode_witness :
  ∃ xo, (<["t" := VInt 400]>
           (<["x" := VInt 1000]>
              (<["v" := VInt 1]>
                 (<["c" := VInt 50]>
                    (<["m" := VDict []]> (∅ : gmap string pyval))))))
        !! "x" = VInt <$> xo
        ∧ decode_session_payload
            (<["t" := VInt 400]>
               (<["x" := VInt 1000]>
                  (<["v" := VInt 1]>
                     (<["c" := VInt 50]> (<["m" := VDict []]> ∅)))))
          = Ok (decoded_record (VDict []) 50 (stored_timeout (Some 400)) xo).
Proof.
  apply (decode_of_encode 100 (VDict []) 50 (Some 400) (Some 1000) (Some 60)
           (Some true)).
  reflexivity.
Defined.

(** X4: a payload encoded with a positive timeout and a trigger that is
    unset or not negative never carries an expires that has already passed:
    an expires in the payload is later than the time of the encoding. *)
Theorem encoded_expires_in_future (time_now : Z) (m : pyval) (c t : Z)
    (expires trig : option Z) (pe : option bool) (p : gmap string pyval)
    (x : Z) :
  0 < t →
  (∀ g, trig = Some g → 0 ≤ g) →
  encode_session_payload time_now m c (Some t) expires trig pe = Ok p →
  p !! "x" = Some (VInt x) →
  time_now < x.
Proof.
  intros Ht Hg Hp Hx. apply encode_shape in Hp as (xo & -> & Hcases).
  assert (Hst : stored_timeout (Some t) = Some t).
  { unfold stored_timeout. simpl. destruct (Z.eqb_spec t 0); [lia|done]. }
  rewrite Hst in Hx, Hcases. cbv zeta in Hx.
  assert (Hxo : xo = Some x).
  { destruct xo as [y|]; [|by vm_compute in Hx].
    rewrite lookup_insert_eq in Hx. by injection Hx as ->. }
  subst xo.
  destruct Hcases as [?|[(<- & Hnz & _ & [?|Hdue])|(t' & [= <-] & _ & _ & [= ->])]];
    [done|done| |lia].
  destruct trig as [g|]; [|done]. unfold recompute_due in Hdue.
  destruct (truthy (of_int_opt (Some g))) eqn:Hgt; [|done].
  simpl in Hdue. apply Ok_inj in Hdue.
  apply truthy_int_true in Hgt as (g' & [= <-] & Hg0).
  specialize (Hg g eq_refl). apply Z.leb_gt in Hdue. lia.
Qed.

Lemma encoded_expires_in_future_witness : 100 < 1000.
Proof.
  apply (encoded_expires_in_future 100 (VDict []) 50 400 (Some 1000) (Some 60)
           (Some true)
           (<["t" := VInt 400]>
              (<["x" := VInt 1000]>
                 (<["v" := VInt 1]>
                    (<["c" := VInt 50]> (<["m" := VDict []]> ∅)))))
           1000).
  - lia.
  - intros g [= <-]. lia.
  - reflexivity.
  - reflexivity.
Defined.

(** X5: outside the trigger window, encoding what was decoded rewrites the
    payload as it is.  A payload encoded with expiry tracking on and a
    nonzero timeout, holding the expires [x], decodes to its managed_dict,
    created, timeout and [x]; encoding these again at a time [now >= 0]
    under a trigger [g > 0] with [now < x - g] gives that same payload. *)
Theorem reencode_outside_window_unchanged (time0 : Z) (m : pyval) (c t : Z)
    (expires0 trig0 : option Z) (p : gmap string pyval) (x time_now g : Z) :
  t ≠ 0 →
  encode_session_payload time0 m c (Some t) expires0 trig0 (Some true) = Ok p →
  p !! "x" = Some (VInt x) →
  0 ≤ time_now → 0 < g → time_now < x - g →
  decode_session_payload p = Ok (decoded_record m c (Some t) (Some x))
  ∧ encode_session_payload time_now m c (Some t) (Some x) (Some g) (Some true)
    = Ok p.
Proof.
  intros Ht Hp Hx Hnow Hg Hwin.
  apply encode_shape in Hp as (xo & -> & _).
  assert (Hst : stored_timeout (Some t) = Some t).
  { unfold stored_timeout. simpl. destruct (Z.eqb_spec t 0); [lia|done]. }
  rewrite Hst in Hx |- *. cbv zeta in Hx |- *.
  assert (Hxo : xo = Some x).
  { destruct xo as [y|]; [|by vm_compute in Hx].
    rewrite lookup_insert_eq in Hx. by injection Hx as ->. }
  subst xo. split; [reflexivity|].
  unfold encode_session_payload. simpl.
  destruct (Z.eqb_spec x 0); [lia|]. destruct (Z.eqb_spec t 0); [lia|].
  simpl. rewrite recompute_due_trigger by lia. simpl.
  destruct (Z.leb_spec (x - g) time_now); [lia|]. reflexivity.
Qed.

Lemma reencode_outside_window_unchanged_witness :
  decode_session_payload (empty_session_payload 1000 (Some 400) (Some true))
  = Ok (decoded_record (VDict []) 1000 (Some 400) (Some 1400))
  ∧ encode_session_payload 1100 (VDict []) 1000 (Some 400) (Some 1400)
      (Some 60) (Some true)
    = Ok (empty_session_payload 1000 (Some 400) (Some true)).
Proof.
  apply (reencode_outside_window_unchanged 1000 (VDict []) 1000 400 None None
           _ 1400 1100 60); [lia | reflexivity | reflexivity | lia..].
Defined.

(** ** The allocator, beyond the claims *)

Lemma run_command_other_key c s k :
  command_key c ≠ k →
  keyspace (run_command c s).2 !! k = keyspace s !! k.
Proof.
  intros Hk. destruct c as [k' v|k' t v|k']; simpl in *.
  - by rewrite lookup_insert_ne.
  - destruct (Z.ltb 0 t); simpl; [by rewrite lookup_insert_ne | done].
  - destruct (keyspace s !! k'); simpl; [by rewrite lookup_delete_ne | done].
Qed.

Lemma absent_untouched cs : ∀ s k,
  keyspace s !! k = None →
  touched_by [k] cs s = false →
  keyspace (server_after cs s) !! k = None.
Proof.
  induction cs as [|c cs IH]; intros s k Habs Ht; [done|].
  cbn [touched_by] in Ht. apply orb_false_iff in Ht as [Hc Ht].
  unfold server_after. cbn [foldl]. apply IH; [|done].
  destruct (decide (command_key c = k)) as [Heq|Hne];
    [|by rewrite run_command_other_key].
  rewrite bool_decide_eq_true_2 in Hc by (by apply list_elem_of_singleton).
  destruct c as [k' v|k' t v|k']; simpl in *; subst k'; [done| |].
  - by rewrite Hc.
  - by rewrite Habs.
Qed.


Section AllocatorFurther.

Variable serialize : gmap string pyval → string.

(** The server an attempt leaves, in its three outcomes. *)
Lemma insert_server env timeout session_id flag dp npf pe s :
  (_insert_session_id_if_unique serialize env timeout session_id flag dp npf
     pe s).2
  = server_left_by_others env session_id s
  ∨ (keyspace (server_at_exec env s) !! session_id = None
     ∧ server_left_by_others env session_id s = server_at_exec env s
     ∧ ∃ write,
         (write = SET session_id
                    (serialize (initial_payload env timeout dp npf pe))
          ∨ ∃ t, write = SETEX session_id t
                           (serialize (initial_payload env timeout dp npf pe)))
         ∧ (_insert_session_id_if_unique serialize env timeout session_id
              flag dp npf pe s).2
           = (run_command write (server_at_exec env s)).2).
Proof.
  unfold server_left_by_others.
  destruct (keyspace (server_at_get env s) !! session_id) as [e|] eqn:Hget.
  { left. rewrite insert_occupied by (by eexists). done. }
  rewrite insert_absent by done.
  destruct (watch_conflict env session_id s) eqn:Hc; [by left|].
  right. split.
  { apply absent_untouched; [done|].
    unfold watch_conflict in Hc. by apply orb_false_iff in Hc as [_ ?]. }
  split; [done|]. cbv zeta.
  destruct timeout as [t|]; [destruct (truthy (VInt t) && flag)|];
    eexists; (split; [|reflexivity]); eauto.
Qed.

(** X6: an attempt never overwrites or removes a session.  Whatever its
    outcome, every entry of the server as the other clients left it is still
    there with its value and TTL, and no key other than the attempt's own
    id has changed. *)
Theorem insert_never_overwrites (env : attempt) (timeout : option Z)
    (session_id : string) (flag : bool) (dp : option (gmap string pyval))
    (npf : option (() → gmap string pyval)) (pe : option bool) (s : server) :
  (∀ k e,
     keyspace (server_left_by_others env session_id s) !! k = Some e →
     keyspace (_insert_session_id_if_unique serialize env timeout session_id
                 flag dp npf pe s).2 !! k = Some e)
  ∧ (∀ k, k ≠ session_id →
          keyspace (_insert_session_id_if_unique serialize env timeout
                      session_id flag dp npf pe s).2 !! k
          = keyspace (server_left_by_others env session_id s) !! k).
Proof.
  destruct (insert_server env timeout session_id flag dp npf pe s)
    as [->|(Habs & -> & write & Hw & ->)]; [done|].
  assert (Hkey : command_key write = session_id).
  { by destruct Hw as [->|[t ->]]. }
  split.
  - intros k e Hk. rewrite run_command_other_key; [done|].
    rewrite Hkey. intros <-. congruence.
  - intros k Hk. apply run_command_other_key. by rewrite Hkey.
Qed.

(** X7: only a watch conflict is retried.  When the store refuses the
    write -- SETEX with a negative timeout, on a free key and without a
    conflict -- the error leaves the attempt and the loop, which stops,
    and nothing has been written. *)
Theorem store_error_surfaces (env : attempt) (rest : list attempt) (t : Z)
    (dp : option (gmap string pyval))
    (npf : option (() → gmap string pyval)) (pe : option bool) (s : server) :
  t < 0 →
  keyspace (server_at_get env s) !! candidate env = None →
  watch_conflict env (candidate env) s = false →
  _insert_session_id_if_unique serialize env (Some t) (candidate env) true dp
    npf pe s
  = (Raise ResponseError, server_at_exec env s)
  ∧ create_unique_session_id serialize (env :: rest) (Some t) true dp npf pe s
    = Some (Raise ResponseError, server_at_exec env s).
Proof.
  intros Ht Habs Hc.
  assert (Hins : _insert_session_id_if_unique serialize env (Some t)
                   (candidate env) true dp npf pe s
                 = (Raise ResponseError, server_at_exec env s)).
  { rewrite insert_absent, Hc by done. simpl.
    destruct (Z.eqb_spec t 0); [lia|]. simpl.
    destruct (Z.ltb_spec 0 t); [lia|]. done. }
  split; [done|]. simpl. by rewrite Hins.
Qed.

Lemma create_app (pre rest : list attempt) (timeout : option Z)
    (flag : bool) (dp : option (gmap string pyval))
    (npf : option (() → gmap string pyval)) (pe : option bool) (s : server) :
  create_unique_session_id serialize (pre ++ rest) timeout flag dp npf pe s
  = match create_unique_session_id serialize pre timeout flag dp npf pe s with
    | Some r => Some r
    | None =>
        create_unique_session_id serialize rest timeout flag dp npf pe
          (server_after_attempts serialize timeout flag dp npf pe pre s)
    end.
Proof.
  revert s. induction pre as [|env pre IH]; intros s; [done|].
  cbn [app create_unique_session_id].
  unfold server_after_attempts. cbn [foldl].
  destruct (_insert_session_id_if_unique serialize env timeout (candidate env)
              flag dp npf pe s) as [[[id|]|e] s1]; [done| |done].
  apply IH.
Qed.

(** X8: the loop ends at the first free id.  When the attempts [pre] have
    not ended the loop, and the next candidate's key is absent at its GET
    and untouched until its EXEC (the timeout not being negative under the
    TTL flag), the loop returns that candidate, whatever the generator and
    the other clients would have done afterwards, and the key then holds
    the serialized payload. *)
Theorem loop_ends_at_first_free_id (pre post : list attempt) (env : attempt)
    (timeout : option Z) (flag : bool) (dp : option (gmap string pyval))
    (npf : option (() → gmap string pyval)) (pe : option bool) (s : server) :
  create_unique_session_id serialize pre timeout flag dp npf pe s = None →
  keyspace
    (server_at_get env
       (server_after_attempts serialize timeout flag dp npf pe pre s))
  !! candidate env = None →
  watch_conflict env (candidate env)
    (server_after_attempts serialize timeout flag dp npf pe pre s) = false →
  (∀ t, timeout = Some t → flag = true → 0 ≤ t) →
  ∃ s',
    create_unique_session_id serialize (pre ++ env :: post) timeout flag dp
      npf pe s
    = Some (Ok (candidate env), s')
    ∧ e_value <$> keyspace s' !! candidate env
      = Some (serialize (initial_payload env timeout dp npf pe)).
Proof.
  intros Hpre Habs Hc Ht.
  rewrite create_app, Hpre. cbn [create_unique_session_id].
  rewrite insert_absent, Hc by done. cbv zeta.
  destruct timeout as [t|].
  - destruct (truthy (VInt t) && flag) eqn:Hw.
    + apply andb_true_iff in Hw as [Htr ->].
      specialize (Ht t eq_refl eq_refl).
      simpl in Htr. apply negb_true_iff, Z.eqb_neq in Htr.
      cbn [run_command]. destruct (Z.ltb_spec 0 t); [|lia].
      cbn [fst snd mbind result_bind]. eexists. split; [reflexivity|].
      cbn [keyspace]. by rewrite lookup_insert_eq.
    + cbn [run_command fst snd mbind result_bind].
      eexists. split; [reflexivity|].
      cbn [keyspace]. by rewrite lookup_insert_eq.
  - cbn [run_command fst snd mbind result_bind].
    eexists. split; [reflexivity|].
    cbn [keyspace]. by rewrite lookup_insert_eq.
Qed.




(** X10: what a new session reads back as.  After an allocation with a
    positive timeout and the TTL flag set, and no payload supplied, the key
    holds the serialized empty session payload with the timeout as its TTL;
    that payload decodes to an empty managed_dict, the time of the attempt
    as created, the current version and the timeout, and to created +
    timeout as expires when expiry tracking is on. *)
Theorem new_session_reads_back (run : list attempt) (t : Z)
    (pe : option bool) (s s' : server) (id : string) :
  0 < t →
  create_unique_session_id serialize run (Some t) true None None pe s
  = Some (Ok id, s') →
  ∃ env,
    env ∈ run ∧ id = candidate env
    ∧ keyspace s' !! id
      = Some (Entry (serialize (empty_session_payload (clock env) (Some t) pe))
                    (Some t))
    ∧ decode_session_payload (empty_session_payload (clock env) (Some t) pe)
      = Ok (decoded_record (VDict []) (clock env) (Some t)
              (if truthy (of_bool_opt pe) then Some (clock env + t)
               else None)).
Proof.
  intros Ht Hrun.
  apply create_split in Hrun
    as (pre & env & post & -> & _ & [(i & Hi & Hins)|(e & ? & _)]); [|done].
  apply Ok_inj in Hi as <-.
  exists env. split; [apply elem_of_app; right; by left|].
  destruct (keyspace (server_at_get env
              (server_after_attempts serialize (Some t) true None None pe pre s))
            !! candidate env) as [e|] eqn:Hget.
  { rewrite insert_occupied in Hins by (by eexists). done. }
  rewrite insert_absent in Hins by done.
  destruct (watch_conflict env (candidate env) _); [done|].
  assert (Htruthy : truthy (VInt t) = true).
  { simpl. destruct (Z.eqb_spec t 0); [lia|done]. }
  cbv zeta in Hins. rewrite Htruthy in Hins.
  cbn [andb run_command] in Hins.
  destruct (Z.ltb_spec 0 t); [|lia].
  cbn [fst snd mbind result_bind] in Hins.
  unfold initial_payload in Hins. injection Hins as <- <-.
  split; [done|]. split.
  - cbn [keyspace]. by rewrite lookup_insert_eq.
  - unfold empty_session_payload. rewrite Htruthy.
    destruct (truthy (of_bool_opt pe)); reflexivity.
Qed.

End AllocatorFurther.

(** ** The id generator and the option names, beyond the claims *)

Lemma string_prefix_append (p s : string) : String.prefix p (p ++ s) = true.
Proof.
  induction p as [|c p IH]; simpl; [by destruct s|].
  destruct (ascii_dec c c); [done | congruence].
Qed.

Lemma string_length_append (p s : string) :
  String.length (p ++ s) = (String.length p + String.length s)%nat.
Proof. induction p as [|c p IH]; simpl; [done | by rewrite IH]. Qed.

Lemma string_append_inj (p s1 s2 : string) : p ++ s1 = p ++ s2 → s1 = s2.
Proof. induction p as [|c p IH]; simpl; [done|]. intros [= H]. auto. Qed.

Lemma generate_session_id_text (entropy : nat → Byte.byte) :
  list_ascii_of_string (_generate_session_id entropy)
  = urlsafe_b64encode (map entropy (seq 0 48))
  ∧ String.length (_generate_session_id entropy) = 64%nat.
Proof.
  destruct (encode_aligned_text (map entropy (seq 0 48))) as [Ht Hlen];
    [by rewrite length_map, length_seq|].
  unfold _generate_session_id, token_urlsafe.
  rewrite list_ascii_of_string_of_list_ascii, length_string_of_list_ascii.
  rewrite rstrip_pad_text by done. split; [done|].
  rewrite length_map, length_seq in Hlen. lia.
Qed.

(** X11: [prefixed_id] gives the prefix followed by a session id of the
    default generator: the result starts with the prefix, is 64 characters
    longer, and for one prefix two results are equal exactly when the 48
    random bytes are. *)
Theorem prefixed_id_is_prefixed (entropy : nat → Byte.byte) (prefix : string) :
  String.prefix prefix (prefixed_id entropy prefix) = true
  ∧ String.length (prefixed_id entropy prefix)
    = (String.length prefix + 64)%nat
  ∧ ∀ entropy',
      prefixed_id entropy' prefix = prefixed_id entropy prefix
      ↔ (∀ i, (i < 48)%nat → entropy' i = entropy i).
Proof.
  unfold prefixed_id. cbv zeta. split; [apply string_prefix_append|].
  split.
  { rewrite string_length_append.
    by destruct (generate_session_id_text entropy) as [_ ->]. }
  intros entropy'. rewrite <- map_seq_ext. split.
  - intros Heq. apply string_append_inj in Heq.
    apply (f_equal list_ascii_of_string) in Heq.
    destruct (generate_session_id_text entropy) as [Hid _].
    destruct (generate_session_id_text entropy') as [Hid' _].
    rewrite Hid, Hid' in Heq.
    apply encode_aligned_inj in Heq;
      [done | by rewrite length_map, length_seq..].
  - intros Heq. unfold _generate_session_id, token_urlsafe. by rewrite Heq.
Qed.

Lemma split_dot_nonempty (s : string) : split_dot s ≠ [].
Proof.
  destruct s as [|c s]; simpl; [done|].
  destruct (Ascii.eqb c "."%char); [done|]. by destruct (split_dot s).
Qed.

Lemma split_dot_dotless (s : string) :
  Forall (λ x, dotless x = true) (split_dot s).
Proof.
  induction s as [|c s IH]; simpl; [by repeat constructor|].
  destruct (Ascii.eqb c "."%char) eqn:Hc; [by constructor|].
  destruct (split_dot s) as [|h t]; [by repeat constructor; simpl; rewrite Hc|].
  apply Forall_cons in IH as [Hh Ht].
  constructor; [|done]. simpl. by rewrite Hc, Hh.
Qed.

Lemma split_dot_of_dotless (s : string) :
  dotless s = true → split_dot s = [s].
Proof.
  induction s as [|c s IH]; simpl; [done|].
  intros [Hc Hs]%andb_true_iff. apply negb_true_iff in Hc.
  by rewrite Hc, (IH Hs).
Qed.

Lemma split_dot_append (s t : string) :
  split_dot (s ++ String "."%char t) = (split_dot s ++ split_dot t)%list.
Proof.
  induction s as [|c s IH]; simpl; [done|].
  destruct (Ascii.eqb c "."%char); [by rewrite IH|].
  rewrite IH. pose proof (split_dot_nonempty s).
  by destruct (split_dot s).
Qed.

Lemma last_app_nonempty {A} (l1 l2 : list A) (d : A) :
  l2 ≠ [] → List.last (l1 ++ l2) d = List.last l2 d.
Proof.
  intros Hl2. induction l1 as [|x l1 IH]; [done|].
  simpl. destruct (l1 ++ l2)%list eqn:Happ; [|done].
  apply app_eq_nil in Happ as [_ ->]. done.
Qed.

Lemma last_component_after_dot (s t : string) :
  dotless t = true → last_component (s ++ String "."%char t) = t.
Proof.
  intros Ht. unfold last_component.
  rewrite split_dot_append, last_app_nonempty by apply split_dot_nonempty.
  by rewrite split_dot_of_dotless.
Qed.

Lemma last_dot (k : string) :
  dotless k = false →
  ∃ s t, k = s ++ String "."%char t ∧ dotless t = true.
Proof.
  induction k as [|c k IH]; simpl; [done|].
  destruct (dotless k) eqn:Hk.
  - rewrite andb_true_r. intros Hc%negb_false_iff%Ascii.eqb_eq. subst c.
    by exists "", k.
  - intros _. destruct (IH eq_refl) as (s & t & -> & Ht).
    by exists (String c s), t.
Qed.

(** X12: the name of an option is what follows the last dot of its key.
    [k.split(".")[-1]] has no dot; it is the whole key when the key has no
    dot, and otherwise the key ends with a dot followed by it -- so every
    key [... "." name] with a dotless [name] is read as the option [name],
    whatever lies before. *)
Theorem last_component_spec (k : string) :
  dotless (last_component k) = true
  ∧ ((dotless k = true ∧ last_component k = k)
     ∨ ∃ s, k = s ++ String "."%char (last_component k))
  ∧ ∀ s t, dotless t = true → last_component (s ++ String "."%char t) = t.
Proof.
  split; [|split].
  - unfold last_component. pose proof (split_dot_dotless k) as Hall.
    pose proof (split_dot_nonempty k) as Hne.
    induction (split_dot k) as [|h t IH]; [done|].
    apply Forall_cons in Hall as [Hh Ht].
    destruct t as [|h' t]; [done|]. by apply IH.
  - destruct (dotless k) eqn:Hk.
    + left. split; [done|]. unfold last_component.
      by rewrite split_dot_of_dotless.
    + right. destruct (last_dot k Hk) as (s & t & -> & Ht).
      exists s. by rewrite last_component_after_dot.
  - apply last_component_after_dot.
Qed.

(** ** The settings parser, beyond the claims *)

Lemma collect_options_app (s1 s2 : list (string * pyval)) :
  collect_options (s1 ++ s2)
  = foldl (λ options kv, <[last_component kv.1 := kv.2]> options)
      (collect_options s1)
      (filter (λ kv, String.prefix "redis.sessions." kv.1 = true) s2).
Proof. unfold collect_options. by rewrite filter_app, foldl_app. Qed.

Lemma collect_options_snoc (settings : list (string * pyval)) (k : string)
    (v : pyval) :
  collect_options (settings ++ [(k, v)])
  = if String.prefix "redis.sessions." k
    then <[last_component k := v]> (collect_options settings)
    else collect_options settings.
Proof.
  rewrite collect_options_app.
  destruct (String.prefix "redis.sessions." k) eqn:Hk.
  - rewrite filter_cons_True by done. reflexivity.
  - rewrite filter_cons_False by (simpl; congruence). reflexivity.
Qed.

(** X13: the last setting of a name wins.  The option [name] collected by
    the first loop is the value of the last setting whose key starts with
    [redis.sessions.] and has [name] after its last dot; when there is no
    such setting the option is absent, whatever the other settings are. *)
Theorem collect_options_lookup (settings : list (string * pyval))
    (name : string) :
  collect_options settings !! name
  = last
      (filter (λ kv, String.prefix "redis.sessions." kv.1 = true
                     ∧ last_component kv.1 = name) settings).*2.
Proof.
  induction settings as [|[k v] settings IH] using rev_ind; [done|].
  rewrite collect_options_snoc, filter_app, fmap_app.
  destruct (String.prefix "redis.sessions." k) eqn:Hk.
  - destruct (decide (last_component k = name)) as [<-|Hne].
    + rewrite lookup_insert_eq, filter_cons_True by done.
      by rewrite filter_nil, fmap_cons, fmap_nil, last_snoc.
    + rewrite lookup_insert_ne by done.
      rewrite filter_cons_False by (cbn; tauto).
      by rewrite filter_nil, fmap_nil, app_nil_r.
  - rewrite filter_cons_False by (cbn; rewrite Hk; intros [[=] _]).
    by rewrite filter_nil, fmap_nil, app_nil_r.
Qed.

Lemma phase_ok (f : pyval → result pyval) (keys : list string)
    (o o' : gmap string pyval) :
  NoDup keys →
  for_each (coerce_key f) keys o = Ok o' →
  ∀ k, (k ∉ keys → o' !! k = o !! k)
       ∧ (k ∈ keys →
          match o !! k with
          | None => o' !! k = None
          | Some v => ∃ v', f v = Ok v' ∧ o' !! k = Some v'
          end).
Proof.
  intros Hnd Hrun k.
  destruct (for_each_coerce_spec f keys Hnd o)
    as [(o'' & Hrun' & Hout & Hin)|(k' & v & e & _ & _ & _ & Hrun')];
    [|congruence].
  rewrite Hrun in Hrun'. apply Ok_inj in Hrun' as <-.
  split; [apply Hout|]. intros Hk.
  destruct (Hin k Hk) as [[-> ->]|(v & v' & -> & Hf & ->)]; [done|].
  by exists v'.
Qed.

Section SettingsFurther.

Context `{Externals}.

Lemma parse_settings_collect (s1 s2 : list (string * pyval)) :
  collect_options s1 = collect_options s2 →
  _parse_settings s1 = _parse_settings s2.
Proof. intros Heq. by rewrite !parse_settings_unfold, Heq. Qed.

(** X14: a setting whose key does not start with [redis.sessions.] has no
    effect on the result of [_parse_settings], wherever it stands and
    whatever its value. *)
Theorem parse_settings_ignores_other_keys (before after : list (string * pyval))
    (k : string) (v : pyval) :
  String.prefix "redis.sessions." k = false →
  _parse_settings (before ++ (k, v) :: after)
  = _parse_settings (before ++ after).
Proof.
  intros Hk. apply parse_settings_collect.
  rewrite !collect_options_app.
  by rewrite filter_cons_False by (simpl; congruence).
Qed.

Lemma coerce_options_pointwise (options o : gmap string pyval) :
  coerce_options options = Ok o →
  ∀ k, match options !! k with
       | None => o !! k = None
       | Some v => ∃ v', coerced k v = Ok v' ∧ o !! k = Some v'
       end.
Proof.
  intros Hco k. unfold coerce_options in Hco.
  destruct (for_each (coerce_key (λ v, Ok (VBool (asbool v)))) configs_bool
              options) as [o1|] eqn:H1; [|done].
  rewrite result_bind_Ok in Hco.
  destruct (for_each (coerce_key int_) configs_int o1) as [o2|] eqn:H2;
    [|done].
  rewrite result_bind_Ok in Hco.
  destruct (for_each (coerce_key int_or_none) configs_int_none o2)
    as [o3|] eqn:H3; [|done].
  rewrite result_bind_Ok in Hco.
  assert (N1 : NoDup configs_bool) by concrete_key.
  assert (N2 : NoDup configs_int) by concrete_key.
  assert (N3 : NoDup configs_int_none) by concrete_key.
  destruct (phase_ok _ _ _ _ N1 H1 k) as [P1 Q1].
  destruct (phase_ok _ _ _ _ N2 H2 k) as [P2 Q2].
  destruct (phase_ok _ _ _ _ N3 H3 k) as [P3 Q3].
  assert (P4 : k ≠ "socket_timeout" → o !! k = o3 !! k).
  { intros Hk. unfold coerce_key in Hco.
    destruct (o3 !! "socket_timeout") as [w|]; [|by apply Ok_inj in Hco as <-].
    destruct (float_ w) as [w'|]; [|done].
    apply Ok_inj in Hco as <-. by rewrite lookup_insert_ne. }
  assert (Q4 : k = "socket_timeout" →
               match o3 !! k with
               | None => o !! k = None
               | Some v => ∃ v', float_ v = Ok v' ∧ o !! k = Some v'
               end).
  { intros ->. unfold coerce_key in Hco.
    destruct (o3 !! "socket_timeout") as [w|] eqn:Hw;
      [|by apply Ok_inj in Hco as <-].
    destruct (float_ w) as [w'|]; [|done].
    apply Ok_inj in Hco as <-. exists w'. by rewrite lookup_insert_eq. }
  unfold coerced.
  destruct (decide (k ∈ configs_bool)) as [Hb|Hb].
  { rewrite bool_decide_eq_true_2 by done.
    rewrite P4, P3, P2 by (key_cases Hb; concrete_key || done).
    specialize (Q1 Hb). by destruct (options !! k). }
  rewrite bool_decide_eq_false_2 by done. rewrite (P1 Hb) in *.
  destruct (decide (k ∈ configs_int)) as [Hi|Hi].
  { rewrite bool_decide_eq_true_2 by done.
    rewrite P4, P3 by (key_cases Hi; concrete_key || done).
    specialize (Q2 Hi). by destruct (options !! k). }
  rewrite bool_decide_eq_false_2 by done. rewrite (P2 Hi) in *.
  destruct (decide (k ∈ configs_int_none)) as [Hn|Hn].
  { rewrite bool_decide_eq_true_2 by done.
    rewrite P4 by (key_cases Hn; done).
    specialize (Q3 Hn). by destruct (options !! k). }
  rewrite bool_decide_eq_false_2 by done. rewrite (P3 Hn) in *.
  destruct (decide (k = "socket_timeout")) as [Hs|Hs].
  { rewrite bool_decide_eq_true_2 by done.
    specialize (Q4 Hs). by destruct (options !! k). }
  rewrite bool_decide_eq_false_2 by done. rewrite (P4 Hs).
  destruct (options !! k) as [v|]; [by exists v | done].
Qed.

Lemma parse_settings_returns (settings : list (string * pyval))
    (options : gmap string pyval) :
  _parse_settings settings = Ok options →
  ∃ o, coerce_options (collect_options settings) = Ok o
       ∧ prefix_conflict o = false
       ∧ options = match o !! "prefix" with
                   | Some prefix =>
                       <["id_generator" := VPartial "prefixed_id" prefix]>
                         (delete "prefix" o)
                   | None => o
                   end.
Proof.
  rewrite parse_settings_unfold.
  destruct (credentials_misconfigured (collect_options settings)); [done|].
  destruct (coerce_options (collect_options settings)) as [o|]; [|done].
  rewrite result_bind_Ok. destruct (prefix_conflict o) eqn:Hc; [done|].
  intros Hp. exists o. split; [done|]. split; [done|].
  destruct (o !! "prefix"); by apply Ok_inj in Hp.
Qed.

(** X15: the coercion of [_parse_settings] acts name by name.  In the
    options it returns, every name other than [prefix] and [id_generator]
    is there exactly when it was collected, and holds the collected value
    coerced as its name asks: [asbool] for the boolean names, [int] for the
    integer names, [int] with ["None"] and zero read as [None] for timeout
    and timeout_trigger, [float] for socket_timeout, and the value itself
    for every other name. *)
Theorem parse_settings_pointwise (settings : list (string * pyval))
    (options : gmap string pyval) (k : string) :
  _parse_settings settings = Ok options →
  k ≠ "prefix" → k ≠ "id_generator" →
  match collect_options settings !! k with
  | None => options !! k = None
  | Some v => ∃ v', coerced k v = Ok v' ∧ options !! k = Some v'
  end.
Proof.
  intros Hparse Hp Hg.
  apply parse_settings_returns in Hparse as (o & Hco & _ & ->).
  assert (Hk : (match o !! "prefix" with
                | Some prefix =>
                    <["id_generator" := VPartial "prefixed_id" prefix]>
                      (delete "prefix" o)
                | None => o
                end) !! k = o !! k).
  { destruct (o !! "prefix"); [|done].
    by rewrite lookup_insert_ne, lookup_delete_ne. }
  rewrite Hk. by apply coerce_options_pointwise.
Qed.

(** X16: the options [_parse_settings] returns never have the name
    [prefix]: a configured prefix is taken out and put back as the id
    generator [partial(prefixed_id, prefix=prefix)] (no id generator being
    configured beside it); without a prefix the id generator is the one
    collected, if any. *)
Theorem parse_settings_prefix (settings : list (string * pyval))
    (options : gmap string pyval) :
  _parse_settings settings = Ok options →
  options !! "prefix" = None
  ∧ match collect_options settings !! "prefix" with
    | Some prefix =>
        collect_options settings !! "id_generator" = None
        ∧ options !! "id_generator" = Some (VPartial "prefixed_id" prefix)
    | None =>
        options !! "id_generator"
        = collect_options settings !! "id_generator"
    end.
Proof.
  intros Hparse.
  apply parse_settings_returns in Hparse as (o & Hco & Hconf & ->).
  pose proof (coerce_options_pointwise _ _ Hco "prefix") as Hp.
  pose proof (coerce_options_pointwise _ _ Hco "id_generator") as Hg.
  unfold coerced in Hp, Hg.
  rewrite !bool_decide_eq_false_2 in Hp by (concrete_key || done).
  rewrite !bool_decide_eq_false_2 in Hg by (concrete_key || done).
  unfold prefix_conflict in Hconf.
  destruct (collect_options settings !! "prefix") as [prefix|].
  - destruct Hp as (prefix' & [= <-] & Hp). rewrite Hp in Hconf |- *.
    rewrite bool_decide_eq_true_2 in Hconf by (by eexists).
    simpl in Hconf. apply bool_decide_eq_false in Hconf.
    split; [by rewrite lookup_insert_ne, lookup_delete_eq|].
    split; [|by rewrite lookup_insert_eq].
    destruct (collect_options settings !! "id_generator") as [g|]; [|done].
    destruct Hg as (g' & _ & Hg). destruct Hconf. by eexists.
  - rewrite Hp. split; [done|].
    destruct (collect_options settings !! "id_generator") as [g|]; [|done].
    by destruct Hg as (g' & [= <-] & ->).
Qed.

End SettingsFurther.

(** ** The older parser *)

Section LegacySettings.

Context `{Externals}.

Lemma legacy_parse_settings_unfold (settings : list (string * pyval)) :
  Legacy._parse_settings settings
  = if negb (bool_decide (is_Some (collect_options settings !! "secret")))
    then Raise (ConfigurationError Legacy.secret_required_error)
    else
      options ← Legacy.coerce_options (collect_options settings);
      if prefix_conflict options
      then Raise (ConfigurationError prefix_generator_error)
      else
        match options !! "prefix" with
        | Some prefix =>
            Ok (<["id_generator" := VPartial "prefixed_id" prefix]>
                  (delete "prefix" options))
        | None => Ok options
        end.
Proof.
  unfold Legacy._parse_settings, Legacy.coerce_options.
  fold (collect_options settings).
  destruct (negb (bool_decide (is_Some (collect_options settings !! "secret"))));
    [done|].
  destruct (for_each (coerce_key (λ v, Ok (VBool (asbool v))))
              Legacy.configs_bool (collect_options settings))
    as [o1|]; rewrite ?result_bind_Ok, ?result_bind_Raise; [|done].
  destruct (for_each (coerce_key int_) Legacy.configs_int o1)
    as [o2|]; rewrite ?result_bind_Ok, ?result_bind_Raise; [|done].
  by destruct (coerce_key float_ "socket_timeout" o2).
Qed.

(** The outcome of the coercion steps of the older parser. *)
Lemma legacy_coerce_options_spec (options : gmap string pyval) :
  (∃ o, Legacy.coerce_options options = Ok o
        ∧ ¬ Legacy.uncoercible options
        ∧ ∀ k, match options !! k with
               | None => o !! k = None
               | Some v => ∃ v', Legacy.coerced k v = Ok v' ∧ o !! k = Some v'
               end)
  ∨ (∃ e, Legacy.coerce_options options = Raise e
          ∧ Legacy.uncoercible options
          ∧ (e = ValueError ∨ e = TypeError)).
Proof.
  unfold Legacy.coerce_options.
  assert (N1 : NoDup Legacy.configs_bool) by concrete_key.
  assert (N2 : NoDup Legacy.configs_int) by concrete_key.
  destruct (for_each_coerce_spec (λ v, Ok (VBool (asbool v)))
              Legacy.configs_bool N1 options)
    as [(o1 & H1 & _)|(k & v & e & _ & _ & He & _)]; [|done].
  rewrite H1, result_bind_Ok.
  destruct (for_each_coerce_spec int_ Legacy.configs_int N2 o1)
    as [(o2 & H2 & _)|(k & v & e & Hk & Hv & He & ->)].
  2:{ right. exists e. rewrite result_bind_Raise. split; [done|].
      apply int_raises in He as [Hint ->].
      split; [|apply coercion_error_kind].
      left. exists k, v. split; [done|]. split; [|done].
      destruct (phase_ok _ _ _ _ N1 H1 k) as [P1 _].
      rewrite <- Hv. symmetry. apply P1. key_cases Hk; concrete_key. }
  rewrite H2, result_bind_Ok.
  assert (Hlook : ∀ k,
            (k ≠ "socket_timeout" →
             match options !! k with
             | None => o2 !! k = None
             | Some v => ∃ v', Legacy.coerced k v = Ok v' ∧ o2 !! k = Some v'
             end)
            ∧ o2 !! "socket_timeout" = options !! "socket_timeout").
  { intros k.
    destruct (phase_ok _ _ _ _ N1 H1 k) as [P1 Q1].
    destruct (phase_ok _ _ _ _ N2 H2 k) as [P2 Q2].
    destruct (phase_ok _ _ _ _ N1 H1 "socket_timeout") as [S1 _].
    destruct (phase_ok _ _ _ _ N2 H2 "socket_timeout") as [S2 _].
    split; [|by rewrite S2, S1 by concrete_key].
    intros Hs. unfold Legacy.coerced.
    destruct (decide (k ∈ Legacy.configs_bool)) as [Hb|Hb].
    { rewrite bool_decide_eq_true_2 by done.
      rewrite P2 by (key_cases Hb; concrete_key).
      specialize (Q1 Hb). by destruct (options !! k). }
    rewrite bool_decide_eq_false_2 by done. rewrite (P1 Hb) in *.
    destruct (decide (k ∈ Legacy.configs_int)) as [Hi|Hi].
    { rewrite bool_decide_eq_true_2 by done.
      specialize (Q2 Hi). by destruct (options !! k). }
    rewrite bool_decide_eq_false_2 by done. rewrite (P2 Hi).
    rewrite bool_decide_eq_false_2 by done.
    destruct (options !! k) as [v|]; [by exists v | done]. }
  assert (Hint : ¬ ∃ k v, k ∈ Legacy.configs_int ∧ options !! k = Some v
                          ∧ py_int v = None).
  { intros (k & v & Hk & Hv & Hi).
    destruct (Hlook k) as [Hl _].
    specialize (Hl ltac:(key_cases Hk; done)). rewrite Hv in Hl.
    destruct Hl as (v' & Hc & _). unfold Legacy.coerced in Hc.
    rewrite bool_decide_eq_false_2 in Hc by (key_cases Hk; concrete_key).
    rewrite bool_decide_eq_true_2 in Hc by done.
    unfold int_ in Hc. by rewrite Hi in Hc. }
  destruct (Hlook "socket_timeout") as [_ Hst].
  destruct (o2 !! "socket_timeout") as [w|] eqn:Hw.
  - rewrite (coerce_key_Some _ _ _ _ Hw).
    destruct (float_ w) as [w'|e] eqn:Hf; simpl.
    + left. exists (<["socket_timeout" := w']> o2). split; [done|]. split.
      * intros [?|(v & Hv & Hfl)]; [done|].
        rewrite <- Hst in Hv. injection Hv as <-.
        unfold float_ in Hf. by rewrite Hfl in Hf.
      * intros k. destruct (decide (k = "socket_timeout")) as [->|Hk].
        -- rewrite <- Hst, lookup_insert_eq. exists w'. split; [|done].
           unfold Legacy.coerced.
           rewrite !bool_decide_eq_false_2 by concrete_key.
           by rewrite bool_decide_eq_true_2.
        -- rewrite lookup_insert_ne by done. by apply Hlook.
    + right. exists e. split; [done|].
      apply float_raises in Hf as [Hfl ->].
      split; [|apply coercion_error_kind].
      right. exists w. by rewrite <- Hst.
  - rewrite (coerce_key_None _ _ _ Hw).
    left. exists o2. split; [done|]. split.
    + intros [?|(v & Hv & _)]; [done|]. congruence.
    + intros k. destruct (decide (k = "socket_timeout")) as [->|Hk].
      * by rewrite <- Hst, Hw.
      * by apply Hlook.
Qed.

(** X17: the older [_parse_settings] raises a configuration error when no
    [secret] is among the options (an empty one will do); otherwise it
    raises the [ValueError] or [TypeError] of [int] or [float] when a
    setting of integer or float type does not coerce; otherwise it raises
    a configuration error when both a prefix and an id generator are
    configured; and otherwise it returns the options. *)
Theorem legacy_parse_settings_outcome (settings : list (string * pyval)) :
  (collect_options settings !! "secret" = None
   ∧ Legacy._parse_settings settings
     = Raise (ConfigurationError Legacy.secret_required_error))
  ∨ (is_Some (collect_options settings !! "secret")
     ∧ Legacy.uncoercible (collect_options settings)
     ∧ ∃ e, Legacy._parse_settings settings = Raise e
            ∧ (e = ValueError ∨ e = TypeError))
  ∨ (is_Some (collect_options settings !! "secret")
     ∧ ¬ Legacy.uncoercible (collect_options settings)
     ∧ prefix_conflict (collect_options settings) = true
     ∧ Legacy._parse_settings settings
       = Raise (ConfigurationError prefix_generator_error))
  ∨ (is_Some (collect_options settings !! "secret")
     ∧ ¬ Legacy.uncoercible (collect_options settings)
     ∧ prefix_conflict (collect_options settings) = false
     ∧ ∃ options, Legacy._parse_settings settings = Ok options).
Proof.
  rewrite legacy_parse_settings_unfold.
  destruct (collect_options settings !! "secret") as [secret|] eqn:Hs.
  2:{ left. split; [done|]. by rewrite bool_decide_eq_false_2 by (by intros [? ?]). }
  right. rewrite bool_decide_eq_true_2 by (by eexists). cbn [negb].
  destruct (legacy_coerce_options_spec (collect_options settings))
    as [(o & -> & Hco & Hlook)|(e & -> & Hun & He)].
  - right. rewrite result_bind_Ok.
    assert (Hc : prefix_conflict o
                 = prefix_conflict (collect_options settings)).
    { unfold prefix_conflict.
      pose proof (Hlook "prefix") as Hp. pose proof (Hlook "id_generator") as Hg.
      unfold Legacy.coerced in Hp, Hg.
      rewrite !bool_decide_eq_false_2 in Hp by (concrete_key || done).
      rewrite !bool_decide_eq_false_2 in Hg by (concrete_key || done).
      destruct (collect_options settings !! "prefix");
        destruct (collect_options settings !! "id_generator");
        repeat match goal with
               | H : ∃ _, _ |- _ => destruct H as (? & _ & ->)
               | H : _ !! _ = None |- _ => rewrite H
               end; reflexivity. }
    rewrite Hc.
    destruct (prefix_conflict (collect_options settings)); [by left|].
    right. split; [by eexists|]. split; [done|]. split; [done|].
    destruct (o !! "prefix"); by eexists.
  - left. split; [by eexists|]. split; [done|]. by exists e.
Qed.

Lemma legacy_parse_settings_returns (settings : list (string * pyval))
    (options : gmap string pyval) :
  Legacy._parse_settings settings = Ok options →
  ∃ o, Legacy.coerce_options (collect_options settings) = Ok o
       ∧ options = match o !! "prefix" with
                   | Some prefix =>
                       <["id_generator" := VPartial "prefixed_id" prefix]>
                         (delete "prefix" o)
                   | None => o
                   end.
Proof.
  rewrite legacy_parse_settings_unfold.
  destruct (negb (bool_decide (is_Some (collect_options settings !! "secret"))));
    [done|].
  destruct (Legacy.coerce_options (collect_options settings)) as [o|]; [|done].
  rewrite result_bind_Ok. destruct (prefix_conflict o); [done|].
  intros Hp. exists o. split; [done|].
  destruct (o !! "prefix"); by apply Ok_inj in Hp.
Qed.

Lemma coerced_agree (k : string) (v : pyval) :
  k ∉ names_since_legacy → Legacy.coerced k v = coerced k v.
Proof.
  intros Hk. unfold Legacy.coerced, coerced.
  destruct (decide (k ∈ Legacy.configs_bool)) as [Hb|Hb].
  { key_cases Hb; reflexivity. }
  rewrite (bool_decide_eq_false_2 (k ∈ Legacy.configs_bool)) by done.
  assert (Hb' : k ∉ configs_bool).
  { intros Hin. key_cases Hin;
      first [by apply Hb; concrete_key | by apply Hk; concrete_key]. }
  rewrite (bool_decide_eq_false_2 (k ∈ configs_bool)) by done.
  destruct (decide (k ∈ Legacy.configs_int)) as [Hi|Hi].
  { key_cases Hi; first [by destruct Hk; concrete_key | reflexivity]. }
  rewrite (bool_decide_eq_false_2 (k ∈ Legacy.configs_int)) by done.
  assert (Hi' : k ∉ configs_int).
  { intros Hin. key_cases Hin; by apply Hi; concrete_key. }
  assert (Hn' : k ∉ configs_int_none).
  { intros Hin. key_cases Hin; by apply Hk; concrete_key. }
  rewrite (bool_decide_eq_false_2 (k ∈ configs_int)) by done.
  by rewrite (bool_decide_eq_false_2 (k ∈ configs_int_none)) by done.
Qed.

(** X18: the two parsers agree where they can.  On settings that both
    accept, the options they return are the same for every name but the
    five boolean names and the trigger that only the newer one coerces,
    and the timeout, which only the newer one reads as [None]. *)
Theorem parsers_agree (settings : list (string * pyval))
    (old new : gmap string pyval) (k : string) :
  Legacy._parse_settings settings = Ok old →
  _parse_settings settings = Ok new →
  k ∉ names_since_legacy →
  old !! k = new !! k.
Proof.
  intros Hold Hnew Hk.
  apply legacy_parse_settings_returns in Hold as (ol & Hol & ->).
  apply parse_settings_returns in Hnew as (on & Hon & _ & ->).
  destruct (legacy_coerce_options_spec (collect_options settings))
    as [(ol' & Hol' & _ & Hlook)|(e & He & _)]; [|congruence].
  rewrite Hol in Hol'. apply Ok_inj in Hol' as <-.
  pose proof (coerce_options_pointwise _ _ Hon) as Hlook'.
  assert (Hsame : ∀ k, k ∉ names_since_legacy → ol !! k = on !! k).
  { intros k' Hk'. specialize (Hlook k'). specialize (Hlook' k').
    destruct (collect_options settings !! k') as [v|]; [|congruence].
    destruct Hlook as (v1 & H1 & ->). destruct Hlook' as (v2 & H2 & ->).
    rewrite (coerced_agree k' v Hk') in H1. congruence. }
  rewrite <- (Hsame "prefix") by concrete_key.
  destruct (ol !! "prefix") as [prefix|]; [|by apply Hsame].
  destruct (decide (k = "id_generator")) as [->|Hg];
    [by rewrite !lookup_insert_eq|].
  rewrite !lookup_insert_ne by done.
  destruct (decide (k = "prefix")) as [->|Hp];
    [by rewrite !lookup_delete_eq|].
  rewrite !lookup_delete_ne by done. by apply Hsame.
Qed.

(** X19: and they part on a timeout of zero: where the older parser
    returns a timeout, it is the integer [int] gives, zero included, and
    the newer parser, on the same settings, returns [None] for that zero
    (and for the string ["None"]) and the same integer otherwise. *)
Theorem parsers_part_on_zero_timeout (settings : list (string * pyval))
    (old new : gmap string pyval) (v : pyval) :
  Legacy._parse_settings settings = Ok old →
  _parse_settings settings = Ok new →
  collect_options settings !! "timeout" = Some v →
  ∃ z, py_int v = Some z
       ∧ old !! "timeout" = Some (VInt z)
       ∧ new !! "timeout"
         = Some (if is_none_string v || Z.eqb z 0 then VNone else VInt z).
Proof.
  intros Hold Hnew Hv.
  apply legacy_parse_settings_returns in Hold as (ol & Hol & ->).
  apply parse_settings_returns in Hnew as (on & Hon & _ & ->).
  destruct (legacy_coerce_options_spec (collect_options settings))
    as [(ol' & Hol' & _ & Hlook)|(e & He & _)]; [|congruence].
  rewrite Hol in Hol'. apply Ok_inj in Hol' as <-.
  pose proof (coerce_options_pointwise _ _ Hon "timeout") as Hlook'.
  specialize (Hlook "timeout"). rewrite Hv in Hlook, Hlook'.
  destruct Hlook as (v1 & H1 & Hl1). destruct Hlook' as (v2 & H2 & Hl2).
  assert (Hfin : ∀ o : gmap string pyval,
            (match o !! "prefix" with
             | Some prefix =>
                 <["id_generator" := VPartial "prefixed_id" prefix]>
                   (delete "prefix" o)
             | None => o
             end) !! "timeout" = o !! "timeout").
  { intros o. destruct (o !! "prefix"); [|done].
    by rewrite lookup_insert_ne, lookup_delete_ne. }
  rewrite !Hfin, Hl1, Hl2.
  unfold Legacy.coerced, int_ in H1. simpl in H1.
  destruct (py_int v) as [z|] eqn:Hz; [|done]. apply Ok_inj in H1 as <-.
  exists z. split; [done|]. split; [done|].
  unfold coerced in H2. simpl in H2.
  unfold int_or_none, int_ in H2. rewrite Hz in H2.
  destruct (is_none_string v); [by apply Ok_inj in H2 as <-|].
  simpl in H2 |- *. destruct (Z.eqb z 0); by apply Ok_inj in H2 as <-.
Qed.

End LegacySettings.

(** ** The deferred-write decorators *)

(** X20: the decorators only mark the session.  For every method, session
    and arguments: the two decorators commute, applying one twice is
    applying it once, a decorated method returns what the method returns
    and leaves the session as the method left it but for the flag set, and
    when the method raises its exception comes out and no flag is set. *)
Theorem decorators_mark_the_session {D Args R : Type}
    (wrapped : method D Args R) (s : session D) (arg : Args) :
  Decorators.persist (Decorators.refresh wrapped) s arg
  = Decorators.refresh (Decorators.persist wrapped) s arg
  ∧ Decorators.refresh (Decorators.refresh wrapped) s arg
    = Decorators.refresh wrapped s arg
  ∧ Decorators.persist (Decorators.persist wrapped) s arg
    = Decorators.persist wrapped s arg
  ∧ (∀ result s',
       wrapped s arg = (Ok result, s') →
       Decorators.refresh wrapped s arg
       = (Ok result, Session (session_data s') (please_persist s') true)
       ∧ Decorators.persist wrapped s arg
         = (Ok result, Session (session_data s') true (please_refresh s'))
       ∧ Decorators.persist (Decorators.refresh wrapped) s arg
         = (Ok result, Session (session_data s') true true))
  ∧ (∀ e s',
       wrapped s arg = (Raise e, s') →
       Decorators.refresh wrapped s arg = (Raise e, s')
       ∧ Decorators.persist wrapped s arg = (Raise e, s')
       ∧ Decorators.persist (Decorators.refresh wrapped) s arg
         = (Raise e, s')).
Proof.
  unfold Decorators.persist, Decorators.refresh.
  destruct (wrapped s arg) as [[result|e] s'] eqn:Hw.
  - split; [reflexivity|]. split; [reflexivity|]. split; [reflexivity|].
    split.
    + intros ? ? [= <- <-]. by repeat split.
    + intros ? ? [=].
  - split; [reflexivity|]. split; [reflexivity|]. split; [reflexivity|].
    split.
    + intros ? ? [=].
    + intros ? ? [= <- <-]. by repeat split.
Qed.

(** ** Instances of the allocator properties *)

Lemma store_error_surfaces_witness :
  create_unique_session_id (λ _, "{}")
    [Attempt "id1" 1000 [] [] []; Attempt "id2" 1000 [] [] []]
    (Some (-5)) true None None None (Server ∅ [])
  = Some (Raise ResponseError, Server ∅ []).
Proof.
  assert (Habs : keyspace (server_at_get (Attempt "id1" 1000 [] [] [])
                             (Server ∅ []))
                 !! candidate (Attempt "id1" 1000 [] [] []) = None)
    by reflexivity.
  assert (Hc : watch_conflict (Attempt "id1" 1000 [] [] [])
                 (candidate (Attempt "id1" 1000 [] [] [])) (Server ∅ [])
               = false)
    by reflexivity.
  apply (proj2 (store_error_surfaces (λ _, "{}") (Attempt "id1" 1000 [] [] [])
                  [Attempt "id2" 1000 [] [] []] (-5) None None None
                  (Server ∅ []) ltac:(lia) Habs Hc)).
Defined.



Lemma new_session_reads_back_witness :
  ∃ env,
    env ∈ [Attempt "id1" 1000 [] [] []] ∧ "id1" = candidate env
    ∧ keyspace (Server (<["id1" := Entry "{}" (Some 100)]> ∅)
                       [SETEX "id1" 100 "{}"]) !! "id1"
      = Some (Entry "{}" (Some 100))
    ∧ decode_session_payload
        (empty_session_payload (clock env) (Some 100) (Some true))
      = Ok (decoded_record (VDict []) (clock env) (Some 100)
              (if truthy (of_bool_opt (Some true))
               then Some (clock env + 100) else None)).
Proof.
  apply (new_session_reads_back (λ _, "{}") [Attempt "id1" 1000 [] [] []] 100
           (Some true) (Server ∅ [])
           (Server (<["id1" := Entry "{}" (Some 100)]> ∅)
                   [SETEX "id1" 100 "{}"])
           "id1").
  - lia.
  - vm_compute. reflexivity.
Defined.

(** ** Instances of the parser properties *)

Lemma parse_settings_ignores_other_keys_witness :
  _parse_settings
    ([("redis.sessions.secret", VStr "s3cret")]
       ++ ("sqlalchemy.url", VStr "sqlite://")
          :: [("redis.sessions.port", VStr "6379")])
  = _parse_settings
      ([("redis.sessions.secret", VStr "s3cret")]
         ++ [("redis.sessions.port", VStr "6379")]).
Proof.
  apply (parse_settings_ignores_other_keys
           [("redis.sessions.secret", VStr "s3cret")]
           [("redis.sessions.port", VStr "6379")]
           "sqlalchemy.url" (VStr "sqlite://")).
  reflexivity.
Defined.

Lemma parse_settings_pointwise_witness :
  ∃ v', coerced "port" (VStr "6379") = Ok v'
        ∧ (<["port" := VInt 6379]> (<["secret" := VStr "s3cret"]> ∅)
           : gmap string pyval) !! "port" = Some v'.
Proof.
  apply (parse_settings_pointwise
           [ ("redis.sessions.secret", VStr "s3cret");
             ("redis.sessions.port", VStr "6379") ]
           (<["port" := VInt 6379]> (<["secret" := VStr "s3cret"]> ∅))
           "port").
  - vm_compute. reflexivity.
  - done.
  - done.
Defined.

Lemma parse_settings_prefix_witness :
  (<["id_generator" := VPartial "prefixed_id" (VStr "session:")]>
     (<["secret" := VStr "s3cret"]> ∅) : gmap string pyval) !! "prefix"
  = None.
Proof.
  apply (parse_settings_prefix
           [ ("redis.sessions.secret", VStr "s3cret");
             ("redis.sessions.prefix", VStr "session:") ]
           (<["id_generator" := VPartial "prefixed_id" (VStr "session:")]>
              (<["secret" := VStr "s3cret"]> ∅))).
  vm_compute. reflexivity.
Defined.

Lemma parsers_agree_witness :
  (<["port" := VInt 6379]>
     (<["timeout" := VInt 0]> (<["secret" := VStr "s3cret"]> ∅))
   : gmap string pyval) !! "port"
  = (<["port" := VInt 6379]>
       (<["timeout" := VNone]> (<["secret" := VStr "s3cret"]> ∅))
     : gmap string pyval) !! "port".
Proof.
  apply (parsers_agree
           [ ("redis.sessions.secret", VStr "s3cret");
             ("redis.sessions.timeout", VStr "0");
             ("redis.sessions.port", VStr "6379") ]).
  - vm_compute. reflexivity.
  - vm_compute. reflexivity.
  - concrete_key.
Defined.

Lemma parsers_part_on_zero_timeout_witness :
  ∃ z, py_int (VStr "0") = Some z
       ∧ (<["timeout" := VInt 0]> (<["secret" := VStr "s3cret"]> ∅)
          : gmap string pyval) !! "timeout" = Some (VInt z)
       ∧ (<["timeout" := VNone]> (<["secret" := VStr "s3cret"]> ∅)
          : gmap string pyval) !! "timeout"
         = Some (if is_none_string (VStr "0") || Z.eqb z 0
                 then VNone else VInt z).
Proof.
  apply (parsers_part_on_zero_timeout
           [ ("redis.sessions.secret", VStr "s3cret");
             ("redis.sessions.timeout", VStr "0") ]).
  - vm_compute. reflexivity.
  - vm_compute. reflexivity.
  - vm_compute. reflexivity.
Defined.

Lemma loop_ends_at_first_free_id_witness :
  ∃ s',
    create_unique_session_id (λ _, "{}")
      ([Attempt "id1" 1000 [] [] []]
         ++ Attempt "id2" 1001 [] [] [] :: [Attempt "id3" 1002 [] [] []])
      (Some 100) true None None None
      (Server (<["id1" := Entry "taken" None]> ∅) [])
    = Some (Ok (candidate (Attempt "id2" 1001 [] [] [])), s')
    ∧ e_value <$> keyspace s' !! candidate (Attempt "id2" 1001 [] [] [])
      = Some ((λ _ : gmap string pyval, "{}")
                (initial_payload (Attempt "id2" 1001 [] [] []) (Some 100)
                   None None None)).
Proof.
  apply (loop_ends_at_first_free_id (λ _, "{}")
           [Attempt "id1" 1000 [] [] []] [Attempt "id3" 1002 [] [] []]
           (Attempt "id2" 1001 [] [] []) (Some 100) true None None None
           (Server (<["id1" := Entry "taken" None]> ∅) [])).
  - vm_compute. reflexivity.
  - vm_compute. reflexivity.
  - vm_compute. reflexivity.
  - intros t [= <-] _. lia.
Defined.
